(** * kitty_config: the configuration report kitten (config.py)

    A shallow embedding of [config.py]: the selection state [CmdArgs] and
    its resolver, the regular-expression splitters, the table formatter,
    the binding differ, the [/etc/issue] data and the report assembler,
    followed by the properties the specification states about them.

    Python strings are modelled by [string]; a character is one code unit.
    Dictionaries keyed by strings are [gmap string _], sets are [gset string].
    Module-level globals ([link_id], [action2key]) and the output buffer are
    threaded explicitly through a small state-and-exception monad. *)

From Stdlib Require Import String Ascii List Bool Arith ZArith Lia Permutation Sorted.
From Stdlib Require Import Numbers.DecimalString Numbers.HexadecimalString.
From stdpp Require Import base gmap sets list strings.

Local Open Scope string_scope.

(* stdpp blocks the unfolding of string concatenation; proofs below compute
   with it. *)
#[local] Arguments String.append !_ _ / : simpl nomatch.

(** ** Characters and string helpers *)

Module Str.

Definition nul : string := EmptyString.

Definition chr (c : ascii) : string := String c EmptyString.

Definition ESC : ascii := "027"%char.
Definition LF : ascii := "010"%char.
Definition TAB : ascii := "009"%char.
Definition SP : ascii := " "%char.
Definition PLUS : ascii := "+"%char.
Definition BSLASH : ascii := "\"%char.

Definition ceq (a b : ascii) : bool := Ascii.eqb a b.

(** [' ' * n] *)
Fixpoint spaces (n : nat) : string :=
  match n with
  | O => EmptyString
  | S k => String SP (spaces k)
  end.

(** [len(s)] *)
Definition len (s : string) : nat := String.length s.

(** [sep.join(l)] *)
Fixpoint join (sep : string) (l : list string) : string :=
  match l with
  | [] => EmptyString
  | [x] => x
  | x :: r => x ++ sep ++ join sep r
  end.

(** [''.join(l)] *)
Fixpoint concat (l : list string) : string :=
  match l with
  | [] => EmptyString
  | x :: r => x ++ concat r
  end.

(** [c in s] *)
Fixpoint has (c : ascii) (s : string) : bool :=
  match s with
  | EmptyString => false
  | String d r => if ceq c d then true else has c r
  end.

(** [str(n)] for a natural number *)
Definition of_nat (n : nat) : string :=
  DecimalString.NilEmpty.string_of_uint (Nat.to_uint n).

(** [str(z)] for an integer *)
Definition of_Z (z : Z) : string :=
  DecimalString.NilEmpty.string_of_int (Z.to_int z).

(** [s.ljust(n)], [s.rjust(n)] *)
Definition ljust_s (n : nat) (s : string) : string := s ++ spaces (n - len s).
Definition rjust_s (n : nat) (s : string) : string := spaces (n - len s) ++ s.

(** [s.center(n)]: CPython pads [left = pad/2 + (pad & width & 1)] *)
Definition center_s (n : nat) (s : string) : string :=
  let pad := n - len s in
  let left := pad / 2 + (if Nat.odd pad && Nat.odd n then 1 else 0) in
  spaces left ++ s ++ spaces (pad - left).

(** [s.startswith(p)] *)
Fixpoint startswith (p s : string) : bool :=
  match p, s with
  | EmptyString, _ => true
  | String a p', String b s' => if ceq a b then startswith p' s' else false
  | String _ _, EmptyString => false
  end.

(** Python's [<] on strings: lexicographic on code units. *)
Fixpoint cmp (a b : string) : comparison :=
  match a, b with
  | EmptyString, EmptyString => Eq
  | EmptyString, String _ _ => Lt
  | String _ _, EmptyString => Gt
  | String x a', String y b' =>
      match Nat.compare (nat_of_ascii x) (nat_of_ascii y) with
      | Eq => cmp a' b'
      | r => r
      end
  end.

Definition leb (a b : string) : bool :=
  match cmp a b with Gt => false | _ => true end.

End Str.

(** ** Exceptions and the command monad *)

Inductive exn : Type :=
| ValueError
| AttributeError
| KeyError
| OSError
| RuntimeError
| OtherException      (* any other subclass of [Exception] *)
| BaseOnly.           (* a [BaseException] that is not an [Exception] *)

(** [except Exception] *)
Definition is_Exception (e : exn) : bool :=
  match e with BaseOnly => false | _ => true end.

(** [except OSError] *)
Definition is_OSError (e : exn) : bool :=
  match e with OSError => true | _ => false end.

(** [except RuntimeError] *)
Definition is_RuntimeError (e : exn) : bool :=
  match e with RuntimeError => true | _ => false end.

Inductive result (A : Type) : Type :=
| Ok (a : A)
| Raise (e : exn).
Arguments Ok {A} a.
Arguments Raise {A} e.

(** ** The selection state *)

Module Args.

Inductive Part : Type := info | config | mouse | keys | colors | env | actions.

#[global] Instance Part_eq_dec : EqDecision Part.
Proof. solve_decision. Defined.

(** [self.parts] *)
Definition parts : list Part := [info; config; mouse; keys; colors; env; actions].

Record CmdArgs : Type := mkCmdArgs {
  diff : bool;
  sort : string;
  plain : bool;
  links : bool;
  deleted : bool;
  empty : bool;
  p_info : option bool;
  p_config : option bool;
  p_mouse : option bool;
  p_keys : option bool;
  p_colors : option bool;
  p_env : option bool;
  p_actions : option bool;
  what : option string      (* absent until [resolveParts] assigns it *)
}.

(** [getattr(self, attr)] for a part name *)
Definition getattr (a : CmdArgs) (p : Part) : option bool :=
  match p with
  | info => p_info a | config => p_config a | mouse => p_mouse a
  | keys => p_keys a | colors => p_colors a | env => p_env a
  | actions => p_actions a
  end.

(** [setattr(self, attr, v)] for a part name *)
Definition setattr (a : CmdArgs) (p : Part) (v : option bool) : CmdArgs :=
  match p with
  | info => mkCmdArgs (diff a) (sort a) (plain a) (links a) (deleted a) (empty a)
      v (p_config a) (p_mouse a) (p_keys a) (p_colors a) (p_env a) (p_actions a) (what a)
  | config => mkCmdArgs (diff a) (sort a) (plain a) (links a) (deleted a) (empty a)
      (p_info a) v (p_mouse a) (p_keys a) (p_colors a) (p_env a) (p_actions a) (what a)
  | mouse => mkCmdArgs (diff a) (sort a) (plain a) (links a) (deleted a) (empty a)
      (p_info a) (p_config a) v (p_keys a) (p_colors a) (p_env a) (p_actions a) (what a)
  | keys => mkCmdArgs (diff a) (sort a) (plain a) (links a) (deleted a) (empty a)
      (p_info a) (p_config a) (p_mouse a) v (p_colors a) (p_env a) (p_actions a) (what a)
  | colors => mkCmdArgs (diff a) (sort a) (plain a) (links a) (deleted a) (empty a)
      (p_info a) (p_config a) (p_mouse a) (p_keys a) v (p_env a) (p_actions a) (what a)
  | env => mkCmdArgs (diff a) (sort a) (plain a) (links a) (deleted a) (empty a)
      (p_info a) (p_config a) (p_mouse a) (p_keys a) (p_colors a) v (p_actions a) (what a)
  | actions => mkCmdArgs (diff a) (sort a) (plain a) (links a) (deleted a) (empty a)
      (p_info a) (p_config a) (p_mouse a) (p_keys a) (p_colors a) (p_env a) v (what a)
  end.

Definition set_diff (a : CmdArgs) (v : bool) : CmdArgs :=
  mkCmdArgs v (sort a) (plain a) (links a) (deleted a) (empty a)
    (p_info a) (p_config a) (p_mouse a) (p_keys a) (p_colors a) (p_env a) (p_actions a) (what a).
Definition set_sort (a : CmdArgs) (v : string) : CmdArgs :=
  mkCmdArgs (diff a) v (plain a) (links a) (deleted a) (empty a)
    (p_info a) (p_config a) (p_mouse a) (p_keys a) (p_colors a) (p_env a) (p_actions a) (what a).
Definition set_plain (a : CmdArgs) (v : bool) : CmdArgs :=
  mkCmdArgs (diff a) (sort a) v (links a) (deleted a) (empty a)
    (p_info a) (p_config a) (p_mouse a) (p_keys a) (p_colors a) (p_env a) (p_actions a) (what a).
Definition set_links (a : CmdArgs) (v : bool) : CmdArgs :=
  mkCmdArgs (diff a) (sort a) (plain a) v (deleted a) (empty a)
    (p_info a) (p_config a) (p_mouse a) (p_keys a) (p_colors a) (p_env a) (p_actions a) (what a).
Definition set_deleted (a : CmdArgs) (v : bool) : CmdArgs :=
  mkCmdArgs (diff a) (sort a) (plain a) (links a) v (empty a)
    (p_info a) (p_config a) (p_mouse a) (p_keys a) (p_colors a) (p_env a) (p_actions a) (what a).
Definition set_empty (a : CmdArgs) (v : bool) : CmdArgs :=
  mkCmdArgs (diff a) (sort a) (plain a) (links a) (deleted a) v
    (p_info a) (p_config a) (p_mouse a) (p_keys a) (p_colors a) (p_env a) (p_actions a) (what a).
Definition set_what (a : CmdArgs) (v : string) : CmdArgs :=
  mkCmdArgs (diff a) (sort a) (plain a) (links a) (deleted a) (empty a)
    (p_info a) (p_config a) (p_mouse a) (p_keys a) (p_colors a) (p_env a) (p_actions a) (Some v).

(** [for attr in self.parts: setattr(self, attr, v)] *)
Definition set_all_parts (a : CmdArgs) (v : option bool) : CmdArgs :=
  fold_left (fun acc p => setattr acc p v) parts a.

(** [for attr in self.parts: if getattr(self, attr) is None: setattr(self, attr, v)] *)
Definition fill_unset (a : CmdArgs) (v : bool) : CmdArgs :=
  fold_left (fun acc p => match getattr acc p with
                          | None => setattr acc p (Some v)
                          | Some _ => acc
                          end) parts a.

(** [CmdArgs.defaults]: the attribute [what] is not touched. *)
Definition defaults (a : CmdArgs) : CmdArgs :=
  set_all_parts
    (mkCmdArgs false Str.nul false true true true
       (p_info a) (p_config a) (p_mouse a) (p_keys a) (p_colors a) (p_env a) (p_actions a)
       (what a))
    None.

(** [CmdArgs()] *)
Definition init : CmdArgs :=
  defaults (mkCmdArgs false Str.nul false false false false
              None None None None None None None None).

(** the getter of the property [all] *)
Definition get_all (a : CmdArgs) : bool :=
  forallb (fun p => match getattr a p with Some true => true | _ => false end) parts.

(** the setter of the property [all] *)
Definition set_all (a : CmdArgs) (val : option bool) : CmdArgs :=
  match val with
  | None => a
  | Some v => set_all_parts a (Some v)
  end.

(** the setter of the property [debug_config] *)
Definition set_debug_config (a : CmdArgs) (val : option bool) : CmdArgs :=
  match val with
  | None => a
  | Some true =>
      let a1 := set_diff a true in
      let a2 := set_sort a1 Str.nul in
      let a3 := set_deleted a2 true in
      let a4 := set_empty a3 false in
      let a5 := set_all_parts a4 (Some true) in
      setattr a5 actions (Some false)
  | Some false => defaults a
  end.

(** [any(part is v for part in partVals)] *)
Definition any_is (v : bool) (partVals : list (option bool)) : bool :=
  existsb (fun x => match x with Some b => Bool.eqb b v | None => false end) partVals.

(** [CmdArgs.resolveParts] *)
Definition resolveParts (a : CmdArgs) : CmdArgs :=
  let partVals := map (getattr a) parts in
  let a1 :=
    if any_is true partVals then fill_unset a false
    else if any_is false partVals then fill_unset a true
    else set_all_parts a (Some true) in
  let a2 := if diff a1 then set_empty a1 false else a1 in
  let a3 := if plain a2 then set_links a2 false else a2 in
  set_what a3 (if diff a3 then "DIFF of" else "ALL").

(** The switches of [parseArgs]; each is a [BooleanOptionalAction], so an
    occurrence on the command line carries [True] or, negated, [False]. *)
Inductive Switch : Type :=
| SwDiff | SwAll | SwPart (p : Part) | SwDeleted | SwEmpty
| SwDebugConfig | SwLinks | SwPlain.

(** what [parse_args] does to the namespace for one occurrence *)
Definition apply_switch (a : CmdArgs) (sw : Switch * bool) : CmdArgs :=
  let '(s, v) := sw in
  match s with
  | SwDiff => set_diff a v
  | SwAll => set_all a (Some v)
  | SwPart p => setattr a p (Some v)
  | SwDeleted => set_deleted a v
  | SwEmpty => set_empty a v
  | SwDebugConfig => set_debug_config a (Some v)
  | SwLinks => set_links a v
  | SwPlain => set_plain a v
  end.

(** [parseArgs]: the switches in command-line order, applied to the
    module-level [cmdArgs], followed by [resolveParts]. *)
Definition parseArgs (cmdArgs : CmdArgs) (sws : list (Switch * bool)) : CmdArgs :=
  resolveParts (fold_left apply_switch sws cmdArgs).

End Args.

(** ** The regular expressions of the module, as scanners

    Each function below is what the named [re] call computes; the scanners
    follow the backtracking matcher of Python's [re]: greedy repetition,
    [.] matching every character but a line feed, and [$] matching at the
    end of the text or just before a final line feed. *)

Module Re.
Import Str.

(** Scans the modifier tokens of [shortcutRe] (group 1: runs without a
    space or a plus sign, each closed by a plus sign) from the start of the
    text. [pending] holds the characters of the token being read, not yet
    closed by a plus sign. Returns what group 1 takes and the text left
    for group 4. *)
Fixpoint split_mods (pending s : string) : string * string :=
  match s with
  | EmptyString => (EmptyString, pending)
  | String c r =>
      if ceq c PLUS then
        match pending with
        | EmptyString => (EmptyString, s)
        | String _ _ =>
            let '(m, k) := split_mods EmptyString r in
            (pending ++ String PLUS m, k)
        end
      else if ceq c SP then (EmptyString, pending ++ s)
      else split_mods (pending ++ chr c) r
  end.

(** [shortcutSplit]: the full match of [shortcutRe] (group 1, the modifier
    tokens; group 4, any characters up to the end of the text), groups 1
    and 4; or the empty prefix and [txt] when there is no match, which
    happens exactly when a line feed is left for group 4. *)
Definition shortcutSplit (txt : string) : string * string :=
  let '(m, k) := split_mods EmptyString txt in
  if has LF k then (EmptyString, txt) else (m, k).

(** the longest prefix without a space, and the rest: "([^ ]+)" *)
Fixpoint span_nonspace (s : string) : string * string :=
  match s with
  | EmptyString => (EmptyString, EmptyString)
  | String c r =>
      if ceq c SP then (EmptyString, s)
      else let '(a, b) := span_nonspace r in (String c a, b)
  end.

(** [actionSplit]: the full match of its pattern (group 1, a non-empty run
    without a space; group 2, a space and any characters up to the end),
    groups 1 and 2; or [txt] and the empty string when there is no match. *)
Definition actionSplit (txt : string) : string * string :=
  match span_nonspace txt with
  | (String c a, String d r) =>
      if has LF r then (txt, EmptyString) else (String c a, String d r)
  | _ => (txt, EmptyString)
  end.

(** [shortcutSortKey] *)
Definition shortcutSortKey (txt : string) : string :=
  let '(mods, key) := shortcutSplit txt in
  key ++ " zzz " ++ mods.

(** [re.sub] of the pattern "\x1b[^m]*m" by the empty string: when [skip]
    is set the scanner is inside a match and drops characters up to and
    including the next [m]. *)
Fixpoint strip_from (skip : bool) (s : string) : string :=
  match s with
  | EmptyString => EmptyString
  | String c r =>
      if skip then
        if ceq c "m"%char then strip_from false r else strip_from true r
      else if ceq c ESC && has "m"%char r then strip_from true r
      else String c (strip_from false r)
  end.

Definition strip_sgr (s : string) : string := strip_from false s.

(** Whether ".*$" can match the text [r] up to its end: no line feed, or a
    single one that is the last character (which stays). Returns the part
    kept. *)
Fixpoint dot_star_end (r : string) : option string :=
  match r with
  | EmptyString => Some EmptyString
  | String c r' =>
      if ceq c LF then
        match r' with EmptyString => Some (chr LF) | _ => None end
      else dot_star_end r'
  end.

(** [re.sub] of the pattern " .*$" by the empty string *)
Fixpoint action_stem (s : string) : string :=
  match s with
  | EmptyString => EmptyString
  | String c r =>
      if ceq c SP then
        match dot_star_end r with
        | Some keep => keep
        | None => String c (action_stem r)
        end
      else String c (action_stem r)
  end.

(** the longest prefix without a slash, and the rest: "([^/]+)" *)
Fixpoint span_nonslash (s : string) : string * string :=
  match s with
  | EmptyString => (EmptyString, EmptyString)
  | String c r =>
      if ceq c "/"%char then (EmptyString, s)
      else let '(a, b) := span_nonslash r in (String c a, b)
  end.

(** the text after the prefix [p], when there is one *)
Fixpoint strip_prefix (p s : string) : option string :=
  match p, s with
  | EmptyString, _ => Some s
  | String a p', String b s' => if ceq a b then strip_prefix p' s' else None
  | String _ _, EmptyString => None
  end.

(** [format_tty_name]: [re.sub] of "^/dev/([^/]+)/([^/]+)$" by groups 1
    and 2 *)
Definition format_tty_name (raw : string) : string :=
  match strip_prefix "/dev/" raw with
  | Some rest =>
      match span_nonslash rest with
      | (String c a, String _ rest2) =>
          match span_nonslash rest2 with
          | (String d b, EmptyString) => String c a ++ String d b
          | _ => raw
          end
      | _ => raw
      end
  | None => raw
  end.

End Re.

(** ** Globals, output and the command monad *)

(** The module-level [link_id] and [action2key], and the text written so
    far to the [StringIO] buffer of [debug_config]. *)
Record Globals : Type := mkGlobals {
  link_id : nat;
  action2key : gmap string (list (string * string));
  out : string
}.

(** the state of a freshly imported module, with an empty buffer *)
Definition fresh : Globals := mkGlobals 1 ∅ EmptyString.

Definition M (A : Type) : Type := Globals -> result (A * Globals).

Definition ret {A} (a : A) : M A := fun g => Ok (a, g).

Definition bind {A B} (m : M A) (k : A -> M B) : M B :=
  fun g => match m g with
           | Ok (a, g') => k a g'
           | Raise e => Raise e
           end.

Definition raise {A} (e : exn) : M A := fun _ => Raise e.

Declare Scope cmd_scope.
Delimit Scope cmd_scope with cmd.
Notation "x <- m ;; k" := (bind m (fun x => k))
  (at level 100, m at next level, right associativity) : cmd_scope.
Notation "m ;;; k" := (bind m (fun _ => k))
  (at level 100, right associativity) : cmd_scope.
Local Open Scope cmd_scope.

(** [for x in l: body(x)] *)
Fixpoint for_each {A} (l : list A) (body : A -> M unit) : M unit :=
  match l with
  | [] => ret tt
  | x :: r => body x ;;; for_each r body
  end.

(** [[f(x) for x in l]], evaluated left to right *)
Fixpoint map_m {A B} (f : A -> M B) (l : list A) : M (list B) :=
  match l with
  | [] => ret []
  | x :: r => y <- f x ;; ys <- map_m f r ;; ret (y :: ys)
  end.

(** the value a command returns from the state [g], when it returns *)
Definition value_of {A} (m : M A) (g : Globals) : option A :=
  match m g with
  | Ok (a, _) => Some a
  | Raise _ => None
  end.

(** Two runs end alike: both raise the same exception, or both return, in
    the same state, values related by [P]. *)
Definition alike {A B} (P : A -> B -> Prop)
    (r : result (A * Globals)) (r' : result (B * Globals)) : Prop :=
  match r, r' with
  | Ok (x, g), Ok (y, g') => g = g' /\ P x y
  | Raise e, Raise e' => e = e'
  | _, _ => False
  end.

(** [out.write(s)] *)
Definition write (s : string) : M unit :=
  fun g => Ok (tt, mkGlobals (link_id g) (action2key g) (out g ++ s)).

(** A [print] callable: the positional arguments (already strings) and the
    [end] keyword when the call gives one. *)
Definition Print : Type := list string -> option string -> M unit.

(** [lambda *args, **kwargs: None] *)
Definition no_print : Print := fun _ _ => ret tt.

(** ** Styling, supplied by the host *)

(** [colored(text, color, intense)] and [styled(text, dim=True)] of
    [kittens.tui.operations]. *)
Class Styling : Type := {
  colored : string -> string -> bool -> string;
  styled_dim : string -> string
}.

Module Style.
Import Str Args.

Section WithStyling.
Context `{Styling}.

Definition red (x : string) : string := colored x "red" false.
Definition green (x : string) : string := colored x "green" false.
Definition yellow (x : string) : string := colored x "yellow" false.
Definition blue (x : string) : string := colored x "blue" false.
Definition title (x : string) : string := colored x "blue" true.
Definition dim (x : string) : string := styled_dim x.

End WithStyling.

Definition nofmt (x : string) : string := x.

(** the OSC 8 terminator [ESC ] 8 ; ; ESC \] *)
Definition osc8_end : string := String ESC "]8;;" ++ String ESC (chr BSLASH).

(** [link]: the counter is bumped whether or not links are enabled. *)
Definition link (cmdArgs : CmdArgs) (url txt : string) : M string :=
  fun g =>
    let id := S (link_id g) in
    let s := if links cmdArgs
             then String ESC "]8;id=" ++ of_nat id ++ ";" ++ url
                  ++ String ESC (chr BSLASH) ++ txt ++ osc8_end
             else txt in
    Ok (s, mkGlobals id (action2key g) (out g)).

Definition nolink (cmdArgs : CmdArgs) : string :=
  if links cmdArgs then osc8_end else EmptyString.

Definition eolnl (cmdArgs : CmdArgs) : string :=
  if links cmdArgs then String LF osc8_end else chr LF.

Definition linkAction (cmdArgs : CmdArgs) (txt : string) : M string :=
  link cmdArgs ("https://sw.kovidgoyal.net/kitty/actions/#action-" ++ txt) txt.

Definition linkConfig (cmdArgs : CmdArgs) (txt : string) : M string :=
  link cmdArgs ("https://sw.kovidgoyal.net/kitty/conf/#opt-kitty." ++ txt) txt.

(** [partial(print, file=out, end=eolnl())]: [end] is evaluated once, when
    the partial is built. *)
Definition printer (cmdArgs : CmdArgs) : Print :=
  fun xs e => write (join " " xs ++ default (eolnl cmdArgs) e).

End Style.

(** ** The table formatter *)

Module Table.
Import Str Args Style Re.

Definition JustFn : Type := nat -> string -> M string.

Definition nojust : JustFn := fun _ s => ret s.
Definition ljust : JustFn := fun n s => ret (ljust_s n s).
Definition rjust : JustFn := fun n s => ret (rjust_s n s).
Definition center : JustFn := fun n s => ret (center_s n s).

Definition formatConf (cmdArgs : CmdArgs) : JustFn := fun n s =>
  l <- linkConfig cmdArgs s ;; ret (l ++ spaces (n - len s)).

Definition formatAction (cmdArgs : CmdArgs) : JustFn := fun n s =>
  let '(action, args) := actionSplit s in
  l <- linkAction cmdArgs action ;; ret (l ++ args ++ spaces (n - len s)).

Record TabFmt : Type := mkTabFmt {
  indent : nat;
  justFn : JustFn;
  fmtFn : string -> string
}.

(** [TabFmt()] *)
Definition TabFmt0 : TabFmt := mkTabFmt 0 nojust nofmt.

(** [zip( *a )]: the columns of [a], cut at its shortest row *)
Fixpoint zip_star (a : list (list string)) : list (list string) :=
  match a with
  | [] => []
  | [r] => map (fun x => [x]) r
  | r :: rest => zip_with cons r (zip_star rest)
  end.

(** [max(map(len, aa))] for a non-empty column; lengths are natural
    numbers, so folding from zero gives the maximum. *)
Definition max_len (aa : list string) : nat :=
  fold_right Nat.max 0 (map len aa).

(** [field_lens] *)
Definition field_lens (a : list (list string)) : list nat :=
  map max_len (zip_star a).

(** [zip(row, fmt, field_lens)] *)
Fixpoint zip3 {A B C} (x : list A) (y : list B) (z : list C) : list (A * B * C) :=
  match x, y, z with
  | a :: x', b :: y', c :: z' => (a, b, c) :: zip3 x' y' z'
  | _, _, _ => []
  end.

(** the lambda applied to one cell *)
Definition formatCell (c : string * TabFmt * nat) : M string :=
  let '(val, fmt1, width) := c in
  j <- justFn fmt1 width val ;;
  ret (spaces (indent fmt1) ++ fmtFn fmt1 j).

(** the formatted cells of one row, before they are joined *)
Definition formatCells (fmt : list TabFmt) (widths : list nat) (row : list string)
  : M (list string) :=
  map_m formatCell (zip3 row fmt widths).

(** [formatTable] *)
Definition formatTable (a : list (list string)) (fmt : list TabFmt)
  : M (list (list string * string)) :=
  match a with
  | [] => ret []
  | _ =>
      let widths := field_lens a in
      map_m (fun row => cells <- formatCells fmt widths row ;;
                        ret (row, Str.concat cells)) a
  end.

(** [formatTable] before the cells of each row are joined *)
Definition formatTable_cells (a : list (list string)) (fmt : list TabFmt)
  : M (list (list string * list string)) :=
  match a with
  | [] => ret []
  | _ =>
      let widths := field_lens a in
      map_m (fun row => cells <- formatCells fmt widths row ;; ret (row, cells)) a
  end.

(** the column format [f] with the identity for its style transform *)
Definition unstyled (f : TabFmt) : TabFmt := mkTabFmt (indent f) (justFn f) nofmt.

(** [printTable] *)
Definition printTable (a : list (list string)) (fmt : list TabFmt) (print : Print)
    (rowFmtFn : list string -> string -> string) : M unit :=
  rows <- formatTable a fmt ;;
  for_each rows (fun rt => print [rowFmtFn (fst rt) (snd rt)] None).

(** the default [rowFmtFn] *)
Definition row_id (row : list string) (txt : string) : string := txt.

End Table.

(** ** Sorting, as [sorted] does it *)

Module Sorting.
Import Str.

Section Insertion.
Context {A : Type} (le : A -> A -> bool).

Fixpoint insert (x : A) (l : list A) : list A :=
  match l with
  | [] => [x]
  | y :: r => if le x y then x :: y :: r else y :: insert x r
  end.

(** [sorted(l)]: a stable sort; equal elements keep their order. *)
Fixpoint sorted (l : list A) : list A :=
  match l with
  | [] => []
  | x :: r => insert x (sorted r)
  end.

End Insertion.

(** the order of Python on pairs of strings *)
Definition pair_leb (a b : string * string) : bool :=
  match cmp (fst a) (fst b) with
  | Lt => true
  | Gt => false
  | Eq => leb (snd a) (snd b)
  end.

End Sorting.

(** ** The binding differ *)

Module Diff.
Import Str Args Style Re Table Sorting.

(** [sorted([(shortcutSortKey(s), s) for s in defns])], second components *)
Definition sorted_triggers (ks : list string) : list string :=
  map snd (sorted pair_leb (map (fun s => (shortcutSortKey s, s)) ks)).

(** [action2key.setdefault(a, []).append(kv)] *)
Definition a2k_append (a : string) (kv : string * string) : M unit :=
  fun g =>
    let old := default [] (action2key g !! a) in
    Ok (tt, mkGlobals (link_id g) (<[a := (old ++ [kv])%list]> (action2key g)) (out g)).

(** [defns[k]] *)
Definition getitem (defns : gmap string string) (k : string) : M string :=
  match defns !! k with
  | Some v => ret v
  | None => raise KeyError
  end.

Definition truthy (o : option bool) : bool :=
  match o with Some true => true | _ => false end.

Section WithStyling.
Context `{Styling}.

(** the body of the loop of [print_mapping_changes] for the trigger [k];
    returns the row appended to [table], if any *)
Definition mapping_row (cmdArgs : CmdArgs) (defns : gmap string string)
    (added removed changed : gset string) (k : string) : M (option (list string)) :=
  let isremoved := bool_decide (k ∈ removed) in
  let ischanged := bool_decide (k ∈ changed) in
  let isadded := bool_decide (k ∈ added) in
  let flags := if isadded then "  A  " else if ischanged then "  C  "
               else if isremoved then "  -  " else "     " in
  if diff cmdArgs && (negb isadded && negb ischanged && negb isremoved) then ret None
  else
    v <- (if negb isremoved
          then d <- getitem defns k ;; formatAction cmdArgs 0 d
          else ret "     ") ;;
    orig <- (if ischanged || isremoved
             then d <- getitem defns k ;;
                  f <- formatAction cmdArgs 0 d ;;
                  ret ("  " ++ String TAB "(" ++ f ++ ")")
             else ret EmptyString) ;;
    (if negb isremoved
     then d <- getitem defns k ;; a2k_append (action_stem d) (k, d)
     else ret tt) ;;;
    if isremoved && negb (deleted cmdArgs) then ret None
    else
      let '(mods, key) := shortcutSplit k in
      ret (Some [mods; key; flags; v; orig]).

(** the rows of [table], in order *)
Fixpoint mapping_rows (cmdArgs : CmdArgs) (defns : gmap string string)
    (added removed changed : gset string) (ks : list string) : M (list (list string)) :=
  match ks with
  | [] => ret []
  | k :: r =>
      row <- mapping_row cmdArgs defns added removed changed k ;;
      rows <- mapping_rows cmdArgs defns added removed changed r ;;
      ret (match row with Some x => x :: rows | None => rows end)
  end.

(** [print_mapping_changes]; [idefns] is received and never read. *)
Definition print_mapping_changes (cmdArgs : CmdArgs) (what : Part)
    (defns idefns : gmap string string) (added removed changed : gset string)
    (text : string) (print : Print) : M unit :=
  let printPart := truthy (getattr cmdArgs what) in
  (if printPart then print [title text] None else ret tt) ;;;
  table <- mapping_rows cmdArgs defns added removed changed
             (sorted_triggers (map fst (map_to_list defns))) ;;
  if printPart
  then printTable table
         [ mkTabFmt 2 rjust yellow;
           mkTabFmt 0 ljust green;
           mkTabFmt 0 nojust red;
           TabFmt0;
           mkTabFmt 0 nojust dim ]
         print
         (fun row txt => if String.eqb (nth 2 row EmptyString) "  -  "
                         then dim txt else txt)
  else ret tt.

End WithStyling.

(** [{k.human_repr(kitty_mod): v for k, v in d.items()}]: a later item
    with the same representation replaces an earlier one. *)
Definition repr_map {E : Type} (human_repr : E -> Z -> string)
    (d : list (E * string)) (kitty_mod : Z) : gmap string string :=
  fold_left (fun m kv => <[human_repr (fst kv) kitty_mod := snd kv]> m) d ∅.

(** [added], [removed] and [changed] of [compare_maps] *)
Definition added_of (ef ei : gmap string string) : gset string := dom ef ∖ dom ei.
Definition removed_of (ef ei : gmap string string) : gset string := dom ei ∖ dom ef.
Definition changed_of (ef ei : gmap string string) : gset string :=
  filter (fun k => ef !! k ≠ ei !! k) (dom ef ∩ dom ei).


(** [dict(list(ei.items()) + list(ef.items()))]: [ef] wins on common keys *)
Definition merged (ef ei : gmap string string) : gmap string string := ef ∪ ei.

Section WithStyling.
Context `{Styling}.

(** [compare_maps]; [what] is ['mouse'] or ['keys'] *)
Definition compare_maps {E : Type} (human_repr : E -> Z -> string)
    (cmdArgs : CmdArgs) (what : Part)
    (final : list (E * string)) (final_kitty_mod : Z)
    (initial : list (E * string)) (initial_kitty_mod : Z) (print : Print) : M unit :=
  let ei := repr_map human_repr initial initial_kitty_mod in
  let ef := repr_map human_repr final final_kitty_mod in
  let added := added_of ef ei in
  let removed := removed_of ef ei in
  let changed := changed_of ef ei in
  which <- (if bool_decide (what = keys)
            then link cmdArgs "https://sw.kovidgoyal.net/kitty/conf/#keyboard-shortcuts"
                   "keyboard shortcuts"
            else link cmdArgs "https://sw.kovidgoyal.net/kitty/conf/#mouse-actions"
                   "mouse actions") ;;
  match Args.what cmdArgs with
  | None => raise AttributeError
  | Some w =>
      print_mapping_changes cmdArgs what (merged ef ei) ei added removed changed
        (w ++ " " ++ which ++ ":") print
  end.

End WithStyling.

End Diff.

(** ** Dictionaries keyed by host objects

    A [dict] whose keys are host values ([SingleKey], [Shortcut],
    [MouseEvent]) is an association list in insertion order, without
    repeated keys. *)

Module Dict.

Section WithKey.
Context {K V : Type} `{EqDecision K}.

(** [d[k] = v] *)
Fixpoint set (d : list (K * V)) (k : K) (v : V) : list (K * V) :=
  match d with
  | [] => [(k, v)]
  | (k', v') :: r => if decide (k' = k) then (k', v) :: r else (k', v') :: set r k v
  end.

(** [d.update(e)] *)
Definition update (d e : list (K * V)) : list (K * V) :=
  fold_left (fun acc kv => set acc (fst kv) (snd kv)) e d.

End WithKey.

End Dict.

(** ** The option differ *)

Module Opts.
Import Str Args Style Re Table Sorting Diff.

(** The value of an option, as far as [compare_opts] looks at it. What the
    host renders ([pformat], [str], [color_as_sharp], the swatch
    [styled('  ', bg=val)]) is carried as text. *)
Inductive OptVal : Type :=
| VDict (items : list ((N * N) * string)) (pformat : string)
    (* [isinstance(val, dict)]: for [k in sorted(val)], the key (a pair of
       code points for [symbol_map]) and [str(val[k])] *)
| VColor (sharp swatch : string)                (* [isinstance(val, Color)] *)
| VOther (str : string).

Record Field : Type := mkField {
  f_name : string;
  f_val : OptVal;              (* [getattr(opts, f)] *)
  f_differs : bool;            (* [getattr(opts, f) != getattr(defaults, f)] *)
  f_default : string           (* [str(getattr(defaults, f))] *)
}.

(** A [KittyOpts] object together with the defaults it is compared to.
    [K] is the host's [SingleKey], [Em] its [MouseEvent]. *)
Record KittyOpts (K Em : Type) : Type := mkKittyOpts {
  fields : list Field;                  (* in the order of [_fields] *)
  kitty_mod : Z;
  kitty_mod_names : list string;        (* [mod_to_names(opts.kitty_mod)] *)
  mousemap : list (Em * string);
  keymap : list (K * string);
  sequence_map : list (K * list (list K * string));
  default_kitty_mod : Z;                (* of [load_config()] *)
  default_mousemap : list (Em * string);
  default_keymap : list (K * string);
  default_sequence_map : list (K * list (list K * string));
  config_paths : list string;
  config_overrides : list string
}.
Arguments fields {K Em} _.
Arguments kitty_mod {K Em} _.
Arguments kitty_mod_names {K Em} _.
Arguments mousemap {K Em} _.
Arguments keymap {K Em} _.
Arguments sequence_map {K Em} _.
Arguments default_kitty_mod {K Em} _.
Arguments default_mousemap {K Em} _.
Arguments default_keymap {K Em} _.
Arguments default_sequence_map {K Em} _.
Arguments config_paths {K Em} _.
Arguments config_overrides {K Em} _.

(** [f'{n:04x}'] *)
Definition hex04 (n : N) : string :=
  let h := match n with
           | N0 => "0"
           | _ => HexadecimalString.NilEmpty.string_of_uint (N.to_hex_uint n)
           end in
  String.concat EmptyString (repeat "0" (4 - len h)) ++ h.

Definition ignored : list string :=
  ["keymap"; "sequence_map"; "mousemap"; "map"; "mouse_map"].

(** [x in l] for strings *)
Definition str_in (x : string) (l : list string) : bool :=
  existsb (String.eqb x) l.

(** [getattr(opts, f)] and its companions, by field name *)
Fixpoint field_of (fs : list Field) (f : string) : M Field :=
  match fs with
  | [] => raise AttributeError
  | x :: r => if String.eqb (f_name x) f then ret x else field_of r f
  end.

Section WithHost.
Context `{Styling} {K Em : Type} `{EqDecision K}.
Context (key_repr : list K -> Z -> string) (mouse_repr : Em -> Z -> string).

(** [flatten_sequence_map] *)
Definition flatten_sequence_map (m : list (K * list (list K * string)))
  : list (list K * string) :=
  fold_left (fun ans kr =>
               fold_left (fun ans' ra => Dict.set ans' (fst kr :: fst ra) (snd ra))
                         (snd kr) ans)
            m [].

(** the body of the loop over [cmp_opts] for a field that is a [dict] *)
Definition show_dict (cmdArgs : CmdArgs) (printConfig : Print) (flags f : string)
    (items : list ((N * N) * string)) (pformat : string) : M unit :=
  l <- linkConfig cmdArgs f ;;
  printConfig [flags; title (l ++ ":")] (Some " ") ;;;
  if String.eqb f "symbol_map" then
    printConfig [] None ;;;
    for_each items (fun kv =>
      printConfig ["          U+" ++ hex04 (fst (fst kv)) ++ " - U+"
                   ++ hex04 (snd (fst kv)) ++ " → " ++ snd kv] None)
  else if String.eqb f "modify_font" then
    printConfig [] None ;;;
    for_each items (fun kv => printConfig ["          "; snd kv] None)
  else printConfig [pformat] None.

(** the body of the loop over [cmp_opts]; returns the line added to
    [colors], if any *)
Definition show_field (cmdArgs : CmdArgs) (opts : KittyOpts K Em) (printConfig : Print)
    (changed_opts : list string) (field_len : nat) (f : string) : M (option string) :=
  let ischanged := str_in f changed_opts in
  let flags := red (if ischanged then "  C  " else "     ") in
  x <- field_of (fields opts) f ;;
  match f_val x with
  | VDict items pf =>
      show_dict cmdArgs printConfig flags f items pf ;;; ret None
  | VColor sharp swatch =>
      ret (Some (flags ++ " " ++ yellow (ljust_s field_len f) ++ " " ++ sharp
                 ++ " " ++ swatch))
  | VOther s =>
      c <- formatConf cmdArgs field_len f ;;
      (if String.eqb f "kitty_mod"
       then printConfig [flags; yellow c; join "+" (kitty_mod_names opts)] (Some EmptyString)
       else printConfig [flags; yellow c; s] (Some EmptyString)) ;;;
      printConfig [if ischanged
                   then dim ("  " ++ String TAB "(" ++ f_default x ++ ")")
                   else EmptyString] None ;;;
      ret None
  end.

Fixpoint show_fields (cmdArgs : CmdArgs) (opts : KittyOpts K Em) (printConfig : Print)
    (changed_opts : list string) (field_len : nat) (fs : list string) : M (list string) :=
  match fs with
  | [] => ret []
  | f :: r =>
      c <- show_field cmdArgs opts printConfig changed_opts field_len f ;;
      cs <- show_fields cmdArgs opts printConfig changed_opts field_len r ;;
      ret (match c with Some x => x :: cs | None => cs end)
  end.

(** [compare_opts] *)
Definition compare_opts (cmdArgs : CmdArgs) (opts : KittyOpts K Em) (print : Print) : M unit :=
  let printConfig := if truthy (getattr cmdArgs config) then print else no_print in
  w <- match what cmdArgs with Some w => ret w | None => raise AttributeError end ;;
  l <- link cmdArgs "https://sw.kovidgoyal.net/kitty/conf/" (w ++ " config options:") ;;
  printConfig [l] None ;;;
  let names := map f_name (fields opts) in
  let changed_opts :=
    filter (fun f => negb (str_in f ignored)
                     && existsb (fun x => String.eqb (f_name x) f && f_differs x)
                                (fields opts))
           (sorted Str.leb names) in
  let cmp_opts := if diff cmdArgs then changed_opts else names in
  field_len <- match names, cmp_opts with
               | [], _ => ret 20
               | _ :: _, [] => raise ValueError
               | _ :: _, _ :: _ => ret (max_len cmp_opts)
               end ;;
  colors <- show_fields cmdArgs opts printConfig changed_opts field_len cmp_opts ;;
  compare_maps mouse_repr cmdArgs mouse (mousemap opts) (kitty_mod opts)
    (default_mousemap opts) (default_kitty_mod opts) print ;;;
  let final := Dict.update (map (fun kv => ([fst kv], snd kv)) (keymap opts))
                           (flatten_sequence_map (sequence_map opts)) in
  let initial := Dict.update (map (fun kv => ([fst kv], snd kv)) (default_keymap opts))
                             (flatten_sequence_map (default_sequence_map opts)) in
  compare_maps key_repr cmdArgs keys final (kitty_mod opts)
    initial (default_kitty_mod opts) print ;;;
  match truthy (getattr cmdArgs Args.colors), colors with
  | true, _ :: _ =>
      print [title (w ++ " colors") ++ ":"] None ;;;
      print [join (chr LF) (sorted Str.leb colors)] None
  | _, _ => ret tt
  end.

End WithHost.

End Opts.

(** ** The data behind an [/etc/issue] banner *)

Module Issue.
Import Str Re.

(** [os.uname()] *)
Record Uname : Type := mkUname {
  sysname : string; nodename : string; release : string;
  version : string; machine : string
}.

(** What the environment answers when [IssueData] probes it. *)
Record Probes : Type := mkProbes {
  uname : Uname;
  gethostname : result string;         (* [socket.gethostname()] *)
  strftime_date : string;              (* [time.strftime('%a %b %d %Y', _time)] *)
  strftime_time : string;              (* [time.strftime('%H:%M:%S', _time)] *)
  ctermid : result string;             (* [os.ctermid()] *)
  stdin_isatty : bool;                 (* [sys.stdin.isatty()] *)
  tcgetattr_speed : result Z;          (* [termios.tcgetattr(sys.stdin.fileno())[5]] *)
  num_users : result Z                 (* [num_users()] *)
}.

Record IssueData : Type := mkIssueData {
  i_uname : Uname;
  hostname : string;
  formatted_time : string;
  formatted_date : string;
  tty_name : string;
  baud_rate : Z;
  i_num_users : Z
}.

(** [IssueData.__init__]: each probe in turn; an exception a handler does
    not name leaves the constructor. *)
Definition IssueData_init (pr : Probes) : result IssueData :=
  match (match gethostname pr with
         | Ok h => Ok h
         | Raise e => if is_Exception e then Ok "localhost" else Raise e
         end) with
  | Raise e => Raise e
  | Ok host =>
      match (match ctermid pr with
             | Ok raw => Ok (format_tty_name raw)
             | Raise e => if is_OSError e then Ok "(none)" else Raise e
             end) with
      | Raise e => Raise e
      | Ok tty =>
          match (if stdin_isatty pr
                 then match tcgetattr_speed pr with
                      | Ok b => Ok b
                      | Raise e => if is_OSError e then Ok 0%Z else Raise e
                      end
                 else Ok 0%Z) with
          | Raise e => Raise e
          | Ok baud =>
              match (match num_users pr with
                     | Ok n => Ok n
                     | Raise e => if is_RuntimeError e then Ok (-1)%Z else Raise e
                     end) with
              | Raise e => Raise e
              | Ok users =>
                  Ok (mkIssueData (uname pr) host (strftime_date pr) (strftime_time pr)
                                  tty baud users)
              end
          end
      end
  end.

(** the attributes with a one-letter name *)
Definition attr1 (d : IssueData) (c : ascii) : option string :=
  if ceq c "s" then Some (sysname (i_uname d))
  else if ceq c "n" then Some (nodename (i_uname d))
  else if ceq c "r" then Some (release (i_uname d))
  else if ceq c "v" then Some (version (i_uname d))
  else if ceq c "m" then Some (machine (i_uname d))
  else if ceq c "o" then Some (hostname d)
  else if ceq c "d" then Some (formatted_time d)
  else if ceq c "t" then Some (formatted_date d)
  else if ceq c "l" then Some (tty_name d)
  else if ceq c "b" then Some (of_Z (baud_rate d))
  else if ceq c "u" then Some (of_Z (i_num_users d))
  else if ceq c "U" then
    Some (of_Z (i_num_users d) ++ " user"
          ++ (if Z.eqb (i_num_users d) 1 then EmptyString else "s"))
  else None.

(** [translate_issue_char] on the one character [read(1)] returns *)
Definition translate_issue_char (d : IssueData) (c : ascii) : string :=
  match attr1 d c with
  | Some s => s
  | None => chr c
  end.

(** [parse_issue_file], as the list of what it yields; [last_char] is the
    loop variable and [s] what is left of the file. *)
Fixpoint parse_issue (d : IssueData) (last_char : option ascii) (s : string)
  : list string :=
  match s with
  | EmptyString =>
      match last_char with Some l => [chr l] | None => [] end
  | String this_char r =>
      match last_char with
      | Some l =>
          if ceq l BSLASH
          then translate_issue_char d this_char :: parse_issue d None r
          else chr l :: parse_issue d (Some this_char) r
      | None => parse_issue d (Some this_char) r
      end
  end.

Definition parse_issue_file (d : IssueData) (content : string) : list string :=
  parse_issue d None content.

End Issue.

(** ** The actions report *)

Module Actions.
Import Str Args Style Re Table Sorting Diff.

(** Python's order on tuples of strings of one length *)
Fixpoint tuple_leb (a b : list string) : bool :=
  match a, b with
  | x :: a', y :: b' =>
      match cmp x y with
      | Lt => true
      | Gt => false
      | Eq => tuple_leb a' b'
      end
  | [], _ => true
  | _ :: _, [] => false
  end.

Definition order : list (string * string) :=
  [("win", "10"); ("tab", "20"); ("sc", "30"); ("lay", "40"); ("mk", "50");
   ("cp", "60"); ("misc", "70"); ("debug", "80"); ("mouse", "zzz")].

(** [order.get(group, group)] *)
Definition order_get (group : string) : string :=
  match find (fun kv => String.eqb (fst kv) group) order with
  | Some kv => snd kv
  | None => group
  end.

Fixpoint drop_leading_blank (s : string) : string :=
  match s with
  | EmptyString => EmptyString
  | String c r =>
      if ceq c "013" || ceq c LF || ceq c SP then drop_leading_blank r else s
  end.

Fixpoint cut_at_break (s : string) : string :=
  match s with
  | EmptyString => EmptyString
  | String c r =>
      if ceq c "013" || ceq c LF || ceq c "." then EmptyString
      else String c (cut_at_break r)
  end.

(** the summary [getActions] takes from a docstring: leading carriage
    returns, line feeds and spaces go, and so does everything from the
    first carriage return, line feed or full stop after them *)
Definition doc_summary (doc : string) : string :=
  cut_at_break (drop_leading_blank doc).

(** [getActions]; [specs] lists, for the functions of [Window], [Tab] and
    [Boss] that carry an [action_spec], the group, the name and the
    docstring, in the order of the classes' dictionaries. *)
Definition getActions (specs : list (string * string * string)) : list (list string) :=
  map (fun v => tl v)
      (sorted tuple_leb
         (map (fun s => let '(group, k, doc) := s in
                        [order_get group; group; k; doc_summary doc]) specs)).

Section WithStyling.
Context `{Styling}.

(** [shortcutFormat] *)
Definition shortcutFormat (mods key : string) : string := yellow mods ++ green key.

(** the loop over [a2ksimple]; [i] counts the bindings printed so far *)
Fixpoint print_simple (print : Print) (i : nat) (l : list (string * string)) : M unit :=
  match l with
  | [] => ret tt
  | (k, _) :: r =>
      (if negb (Nat.eqb i 0) && Nat.eqb (i mod 4) 0
       then print [String LF "       "] (Some EmptyString) else ret tt) ;;;
      (let '(mods, key) := shortcutSplit k in
       print ["   "; shortcutFormat mods key] (Some EmptyString)) ;;;
      print_simple print (S i) r
  end.

(** what [printActions] does for an action that has bindings *)
Definition print_bindings (cmdArgs : CmdArgs) (print : Print) (a : string)
    (bound : list (string * string)) : M unit :=
  let a2ksorted :=
    map (fun v => (nth 2 v EmptyString, nth 3 v EmptyString))
        (sorted tuple_leb
           (map (fun kv => [snd kv; shortcutSortKey (fst kv); fst kv; snd kv]) bound)) in
  let a2ksimple := filter (fun v => String.eqb (snd v) a) a2ksorted in
  let a2kcomposite := filter (fun v => negb (String.eqb (snd v) a)) a2ksorted in
  (match a2ksimple with
   | [] => ret tt
   | _ :: _ =>
       print ["       "] (Some EmptyString) ;;;
       print_simple print 0 a2ksimple ;;;
       print [] None
   end) ;;;
  rows <- map_m (fun kv => let '(mods, key) := shortcutSplit (fst kv) in
                           f <- formatAction cmdArgs 0 (snd kv) ;;
                           ret [mods; key; f]) a2kcomposite ;;
  printTable rows
    [ mkTabFmt 10 rjust yellow; mkTabFmt 0 ljust green; mkTabFmt 3 nojust nofmt ]
    print row_id.

(** the body of the loop of [printActions] *)
Definition print_action (cmdArgs : CmdArgs) (print : Print)
    (rt : list string * string) : M unit :=
  match fst rt with
  | [group; action; desc] =>
      (if empty cmdArgs then print [snd rt] None else ret tt) ;;;
      let a := action_stem action in
      fun g =>
        match action2key g !! a with
        | Some bound =>
            ((if negb (empty cmdArgs) then print [snd rt] None else ret tt) ;;;
             print_bindings cmdArgs print a bound) g
        | None => ret tt g
        end
  | _ => raise ValueError
  end.

(** [printActions] *)
Definition printActions (cmdArgs : CmdArgs) (specs : list (string * string * string))
    (print : Print) : M unit :=
  actionsTable <- formatTable (getActions specs)
                    [ mkTabFmt 0 ljust blue;
                      mkTabFmt 2 (formatAction cmdArgs) nofmt;
                      mkTabFmt 3 nojust dim ] ;;
  for_each actionsTable (print_action cmdArgs print).

End WithStyling.

End Actions.

(** ** The report assembler *)

Module Report.
Import Str Args Style Re Table Sorting Diff Opts Issue Actions.

(** What the operating system and the host answer during one run. *)
Record Sys : Type := mkSys {
  version_text : string;               (* [version(add_rev=True)] *)
  is_macos : bool;
  sw_vers : result (list string);      (* the lines [sw_vers] prints *)
  issue_exists : bool;                 (* [os.path.exists('/etc/issue')] *)
  issue_open : result string;          (* opening and reading [/etc/issue] *)
  lsb_exists : bool;                   (* [os.path.exists('/etc/lsb-release')] *)
  lsb_open : result string;            (* opening and reading [/etc/lsb-release] *)
  is_wayland : bool;
  frozen : bool;                       (* [getattr(sys, 'frozen', False)] *)
  kitty_exe : string;                  (* [os.path.realpath(kitty_exe())] *)
  kitty_base_dir : string;
  extensions_dir : string;
  shell_path : string;
  environ : list (string * string);    (* [os.environ.items()] *)
  probes : Probes;
  action_specs : list (string * string * string)
}.

(** the characters [str.strip] removes *)
Definition is_space (c : ascii) : bool :=
  let n := nat_of_ascii c in
  (Nat.leb 9 n && Nat.leb n 13) || (Nat.leb 28 n && Nat.leb n 32)
  || Nat.eqb n 133 || Nat.eqb n 160.

Fixpoint lstrip (s : string) : string :=
  match s with
  | EmptyString => EmptyString
  | String c r => if is_space c then lstrip r else s
  end.

Fixpoint rstrip (s : string) : string :=
  match s with
  | EmptyString => EmptyString
  | String c r =>
      match rstrip r with
      | EmptyString => if is_space c then EmptyString else chr c
      | r' => String c r'
      end
  end.

(** [s.strip()] *)
Definition strip (s : string) : string := rstrip (lstrip s).

(** lifts a probe into the command monad *)
Definition probe {A} (r : result A) : M A :=
  match r with
  | Ok a => ret a
  | Raise e => raise e
  end.

Definition envVars : list string :=
  ["PATH"; "LANG"; "KITTY_CONFIG_DIRECTORY"; "KITTY_CACHE_DIRECTORY"; "VISUAL";
   "EDITOR"; "SHELL"; "GLFW_IM_MODULE"; "KITTY_WAYLAND_DETECT_MODIFIERS";
   "DISPLAY"; "WAYLAND_DISPLAY"; "USER"; "XCURSOR_SIZE"].

(** the [/etc/issue] statement of [debug_config] *)
Definition issue_banner (sys : Sys) (p : Print) : M unit :=
  if issue_exists sys then
    match IssueData_init (probes sys) with
    | Raise e => if is_Exception e then ret tt else raise e
    | Ok idata =>
        content <- probe (issue_open sys) ;;
        p [] (Some (Str.concat (parse_issue_file idata content)))
    end
  else ret tt.

(** the [/etc/lsb-release] statement of [debug_config] *)
Definition lsb_banner (sys : Sys) (p : Print) : M unit :=
  if lsb_exists sys then
    content <- probe (lsb_open sys) ;;
    p [strip content] None
  else ret tt.

Section WithHost.
Context `{Styling} {K Em : Type} `{EqDecision K}.
Context (key_repr : list K -> Z -> string) (mouse_repr : Em -> Z -> string).

(** the [info] section *)
Definition info_section (sys : Sys) (opts : KittyOpts K Em) (p : Print) : M unit :=
  p [version_text sys] None ;;;
  (let u := uname (probes sys) in
   p [join " " [sysname u; nodename u; release u; version u; machine u]] None) ;;;
  (if is_macos sys
   then ls <- probe (sw_vers sys) ;; p [strip (join "  " ls)] None
   else ret tt) ;;;
  issue_banner sys p ;;;
  lsb_banner sys p ;;;
  (if negb (is_macos sys)
   then p ["Running under:"; green (if is_wayland sys then "Wayland" else "X11")] None
   else ret tt) ;;;
  p [green "Frozen:"; if frozen sys then "True" else "False"] None ;;;
  p [green "Paths:"] None ;;;
  p [yellow "  kitty:"; kitty_exe sys] None ;;;
  p [yellow "  base dir:"; kitty_base_dir sys] None ;;;
  p [yellow "  extensions dir:"; extensions_dir sys] None ;;;
  p [yellow "  system shell:"; shell_path sys] None ;;;
  (match config_paths opts with
   | [] => ret tt
   | ps => p [green "Loaded config files:"] None ;;;
           p [" "; join (String LF "  ") ps] None
   end) ;;;
  (match config_overrides opts with
   | [] => ret tt
   | os => p [green "Loaded config overrides:"] None ;;;
           p [" "; join (String LF "  ") os] None
   end) ;;;
  p [] None.

(** the [env] section *)
Definition env_section (sys : Sys) (p : Print) : M unit :=
  p [green "Important environment variables seen by the kitty process:"] None ;;;
  printTable
    (map (fun kv => [fst kv; snd kv])
         (filter (fun kv => startswith "LC_" (fst kv) || startswith "XDG_" (fst kv)
                            || str_in (fst kv) envVars)
                 (sorted pair_leb (environ sys))))
    [ mkTabFmt 6 ljust yellow; mkTabFmt 3 nojust nofmt ]
    p row_id ;;;
  p [] None.

(** the [actions] section *)
Definition actions_section (cmdArgs : CmdArgs) (sys : Sys) (p : Print) : M unit :=
  w <- match what cmdArgs with Some w => ret w | None => raise AttributeError end ;;
  l <- link cmdArgs "https://sw.kovidgoyal.net/kitty/actions/" (w ++ " available actions:") ;;
  p [green l] None ;;;
  printActions cmdArgs (action_specs sys) p.

(** the text in the buffer when [debug_config] reaches its [return] *)
Definition assemble (cmdArgs : CmdArgs) (sys : Sys) (opts : KittyOpts K Em) : M string :=
  let p := printer cmdArgs in
  (fun g => ret tt (mkGlobals (link_id g) (action2key g) EmptyString)) ;;;
  (if truthy (getattr cmdArgs info) then info_section sys opts p else ret tt) ;;;
  compare_opts key_repr mouse_repr cmdArgs opts p ;;;
  p [] None ;;;
  (if truthy (getattr cmdArgs env) then env_section sys p else ret tt) ;;;
  (if truthy (getattr cmdArgs actions) then actions_section cmdArgs sys p else ret tt) ;;;
  fun g => ret (out g) g.

(** [debug_config] *)
Definition debug_config (cmdArgs : CmdArgs) (sys : Sys) (opts : KittyOpts K Em) : M string :=
  text <- assemble cmdArgs sys opts ;;
  ret (if negb (plain cmdArgs) then text else strip_sgr text).

(** [main] and [handle_result]: [parseArgs] on the module-level [cmdArgs],
    then [debug_config]. *)
Definition run (cmdArgs : CmdArgs) (sws : list (Switch * bool)) (sys : Sys)
    (opts : KittyOpts K Em) : M string :=
  debug_config (parseArgs cmdArgs sws) sys opts.

End WithHost.

End Report.

(** ** A styling instance for worked examples *)

Module Sgr.
Import Str.

Definition color_index (color : string) : nat :=
  match find (fun kv => String.eqb (fst kv) color)
             [("black", 0); ("red", 1); ("green", 2); ("yellow", 3); ("blue", 4);
              ("magenta", 5); ("cyan", 6); ("gray", 7); ("white", 7)] with
  | Some kv => snd kv
  | None => 0
  end.

Definition sgr (code : string) : string := String ESC "[" ++ code ++ "m".

(** A styling for the worked examples. The host's [colored] and [styled]
    are taken as the parameters of [Styling]; this instance wraps the text
    in SGR escape sequences, the way a terminal styling library does. *)
#[global] Instance sgr_styling : Styling := {|
  colored x color intense :=
    sgr (of_nat ((if intense then 90 else 30) + color_index color)) ++ x ++ sgr "39";
  styled_dim x := sgr "2" ++ x ++ sgr "22"
|}.

(** a styling that leaves the text as it is *)
Definition plain_styling : Styling := {|
  colored x _ _ := x;
  styled_dim x := x
|}.

End Sgr.

(** ** Vocabulary of the statements about the listing order *)

Module Grouping.
Import Str Re.

(** the trigger with its modifier prefix stripped *)
Definition bare_key (t : string) : string := snd (shortcutSplit t).

(** the modifier prefix of a trigger *)
Definition mod_prefix (t : string) : string := fst (shortcutSplit t).

(** [p in s] *)
Fixpoint contains (p s : string) : bool :=
  startswith p s
  || match s with
     | EmptyString => false
     | String _ r => contains p r
     end.

(** The elements of [l] that share a key stand in one contiguous block:
    between two elements with one key there is no element with another. *)
Definition grouped {A B : Type} (key : A -> B) (l : list A) : Prop :=
  forall (i j k : nat) (x y z : A),
    i < j -> j < k ->
    l !! i = Some x -> l !! j = Some y -> l !! k = Some z ->
    key x = key z -> key y = key x.

End Grouping.

(** ** Vocabulary of the statements about plain mode *)

Module Plain.
Import Str.

(** no escape character at all *)
Definition esc_free (s : string) : Prop := has ESC s = false.

(** no escape character that an [m] follows, however far: nothing in [s]
    matches the pattern that plain mode strips *)
Definition no_sgr_left (s : string) : Prop :=
  forall a b : string, s = a ++ String ESC b -> has "m" b = false.

End Plain.

(** ** Inputs of the worked examples *)

Module Samples.
Import Str Args Style Table Diff Opts Issue Report.

(** the state after [--env --no-colors --diff --plain]: one part explicitly
    true, one explicitly false, five unset *)
Definition sample_args : CmdArgs :=
  fold_left apply_switch
    [(SwPart env, true); (SwPart colors, false); (SwDiff, true); (SwPlain, true)] init.

(** triggers whose bare keys are [a] and [b] *)
Definition sample_triggers : list string :=
  ["ctrl+a"; "b"; "shift+a"; "ctrl+shift+b"; "a"].

(** two triggers on the key [a] and one whose key holds the separator *)
Definition split_triggers : list string := ["c+a"; "a zzz d"; "e+a"].

(** bindings whose triggers are already given by their representation *)
Definition repr_id (s : string) (kitty_mod : Z) : string := s.

(** a key sequence, its keys given by their representation *)
Definition keys_repr (ks : list string) (kitty_mod : Z) : string := join " > " ks.

(** [ctrl+a] moved from [next_tab] to [previous_tab] *)
Definition default_bindings : list (string * string) := [("ctrl+a", "next_tab")].
Definition current_bindings : list (string * string) := [("ctrl+a", "previous_tab")].

(** the state after [--no-links] *)
Definition args_no_links : CmdArgs := parseArgs init [(SwLinks, false)].

(** the switches [--env --plain] *)
Definition env_plain : list (Switch * bool) := [(SwPart env, true); (SwPlain, true)].

Definition sample_uname : Uname :=
  mkUname "Linux" "box" "6.1.0" "#1 SMP" "x86_64".

(** every probe answers *)
Definition probes_ok : Probes :=
  mkProbes sample_uname (Ok "box") "Wed Nov 04 2026" "12:00:00"
           (Ok "/dev/pts/3") true (Ok 38400%Z) (Ok 2%Z).

(** every probe fails, each with the exception its handler names *)
Definition probes_failing : Probes :=
  mkProbes sample_uname (Raise OtherException) "Wed Nov 04 2026" "12:00:00"
           (Raise OSError) true (Raise OSError) (Raise RuntimeError).

(** standard input is a terminal whose attributes cannot be read, and the
    failure is not an [OSError] (the [termios.error] of [tcgetattr]) *)
Definition probes_termios_error : Probes :=
  mkProbes sample_uname (Ok "box") "Wed Nov 04 2026" "12:00:00"
           (Ok "/dev/pts/3") true (Raise OtherException) (Ok 2%Z).

(** options equal to the defaults, with no bindings; keys and mouse events
    are given by their representation *)
Definition sample_opts : KittyOpts string string :=
  mkKittyOpts string string
    [mkField "font_size" (VOther "11.0") false "11.0"]
    5 ["ctrl"; "shift"] [] [] [] 5 [] [] [] [] [].

(** a Linux host without banner files, and an environment in which
    [XDG_X] holds an escape character that no [m] follows *)
Definition sys_env_esc : Sys :=
  mkSys "kitty 0.30.0" false (Raise OSError) false (Raise OSError) false (Raise OSError)
        false false "/usr/bin/kitty" "/usr/lib/kitty" "/usr/lib/kitty/ext" "/bin/sh"
        [("XDG_X", String ESC "[1"); ("HOME", "/root")]
        probes_ok [].

(** the same host with a coloured value in [XDG_X] *)
Definition sys_env_sgr : Sys :=
  mkSys "kitty 0.30.0" false (Raise OSError) false (Raise OSError) false (Raise OSError)
        false false "/usr/bin/kitty" "/usr/lib/kitty" "/usr/lib/kitty/ext" "/bin/sh"
        [("XDG_X", String ESC "[1mbold"); ("HOME", "/root")]
        probes_ok [].

(** what [--env --plain] reports on the host [sys_env_esc] *)
Definition report_env_esc : string :=
  String LF ("Important environment variables seen by the kitty process:"
  ++ String LF ("      XDG_X   " ++ String ESC ("[1" ++ String LF (chr LF)))).

(** what [--env --plain] reports on the host [sys_env_sgr] *)
Definition report_env_sgr : string :=
  String LF ("Important environment variables seen by the kitty process:"
  ++ String LF ("      XDG_X   bold" ++ String LF (chr LF))).

(** a host whose [/etc/issue] exists and cannot be opened *)
Definition sys_issue_unreadable : Sys :=
  mkSys "kitty 0.30.0" false (Raise OSError) true (Raise OSError) false (Raise OSError)
        false false "/usr/bin/kitty" "/usr/lib/kitty" "/usr/lib/kitty/ext" "/bin/sh"
        [] probes_ok [].

(** a host whose [/etc/lsb-release] exists and cannot be opened *)
Definition sys_lsb_unreadable : Sys :=
  mkSys "kitty 0.30.0" false (Raise OSError) false (Raise OSError) true (Raise OSError)
        false false "/usr/bin/kitty" "/usr/lib/kitty" "/usr/lib/kitty/ext" "/bin/sh"
        [] probes_ok [].

(** a host with both banner files in place *)
Definition sys_banners : Sys :=
  mkSys "kitty 0.30.0" false (Raise OSError)
        true (Ok ("Debian \n \l" ++ chr LF))
        true (Ok ("DISTRIB_ID=Debian" ++ chr LF))
        false false "/usr/bin/kitty" "/usr/lib/kitty" "/usr/lib/kitty/ext" "/bin/sh"
        [] probes_ok [].

End Samples.

(** ** Vocabulary of the statements about the table formatter *)

Module TableSpec.
Import Str Style Table.

(** The greatest raw length in column [j] of the table [a], in the words
    of the specification: the maximum, over all rows, of the string length
    of the cell of that column. *)
Definition column_max (a : list (list string)) (j : nat) : nat :=
  fold_right Nat.max 0 (map (fun row => len (nth j row EmptyString)) a).

(** The justified texts of a row, in the words of the specification: the
    cell of column [j], [j+1], ... justified by the justification of its
    column to the greatest raw length of that column. No style is
    applied. *)
Fixpoint justify_from (a : list (list string)) (j : nat) (row : list string)
    (fmt : list TabFmt) : M (list string) :=
  match row, fmt with
  | v :: row', f :: fmt' =>
      t <- justFn f (column_max a j) v ;;
      ts <- justify_from a (S j) row' fmt' ;;
      ret (t :: ts)
  | _, _ => ret []
  end.

(** every row of the table with its justified texts *)
Definition justified_rows (a : list (list string)) (fmt : list TabFmt)
  : M (list (list string * list string)) :=
  map_m (fun row => ts <- justify_from a 0 row fmt ;; ret (row, ts)) a.

(** the cells made of justified texts: the indent of the column, then the
    style of the column applied to the text *)
Definition style_cells (fmt : list TabFmt) (ts : list string) : list string :=
  zip_with (fun f t => spaces (indent f) ++ fmtFn f t) fmt ts.

(** [s[n:]] *)
Fixpoint drop (n : nat) (s : string) : string :=
  match n, s with
  | S k, String _ r => drop k r
  | _, _ => s
  end.

(** [s[:n]] *)
Fixpoint take (n : nat) (s : string) : string :=
  match n, s with
  | S k, String c r => String c (take k r)
  | _, _ => EmptyString
  end.

(** The cells of a row with the styles undone: [uns] holds, column by
    column, a function that takes the style of that column off; the indent
    of the column is kept. *)
Fixpoint unstyle_row (fmt : list TabFmt) (uns : list (string -> string))
    (cells : list string) : list string :=
  match fmt, uns, cells with
  | f :: fmt', u :: uns', c :: cells' =>
      (spaces (indent f) ++ u (drop (indent f) c)) :: unstyle_row fmt' uns' cells'
  | _, _, _ => []
  end.

(** takes [p] characters off the front of a text and [q] off its end *)
Definition unwrap (p q : nat) (s : string) : string :=
  take (len s - p - q) (drop p s).

Section WithStyling.
Context `{Styling}.

(** the column formats [print_mapping_changes] hands to [printTable] *)
Definition mapping_fmt : list TabFmt :=
  [ mkTabFmt 2 rjust yellow;
    mkTabFmt 0 ljust green;
    mkTabFmt 0 nojust red;
    TabFmt0;
    mkTabFmt 0 nojust dim ].

End WithStyling.

(** what takes the SGR styles of [mapping_fmt] off, column by column: the
    colours open with five characters and the dim style with four; all
    close with five *)
Definition mapping_uns : list (string -> string) :=
  [unwrap 5 5; unwrap 5 5; unwrap 5 5; (fun s => s); unwrap 4 5].

(** two rows as [print_mapping_changes] builds them *)
Definition mapping_table : list (list string) :=
  [ ["ctrl+"; "a"; "  C  "; "previous_tab"; "  " ++ String TAB "(previous_tab)"];
    ["ctrl+shift+"; "tab"; "     "; "next_tab"; EmptyString] ].

End TableSpec.

(** ** Vocabulary of the further statements *)

Module Further.
Import Str Args Style Re Table Diff Opts Issue Report.

(** what follows the last space of [s]; the whole of [s] when it has none *)
Fixpoint tail_seg (s : string) : string :=
  match s with
  | EmptyString => EmptyString
  | String c r => if has SP r then tail_seg r else if ceq c SP then r else s
  end.

(** the part [q] is named by one of the switches *)
Definition mentions (sws : list (Switch * bool)) (q : Part) : bool :=
  existsb (fun sw => match fst sw with
                     | SwPart p => bool_decide (p = q)
                     | _ => false
                     end) sws.

(** the value the last switch naming the part [q] carries *)
Fixpoint last_set (sws : list (Switch * bool)) (q : Part) : option bool :=
  match sws with
  | [] => None
  | (SwPart p, b) :: r =>
      match last_set r q with
      | Some b' => Some b'
      | None => if bool_decide (p = q) then Some b else None
      end
  | _ :: r => last_set r q
  end.

(** every switch names a part *)
Definition parts_only (sws : list (Switch * bool)) : Prop :=
  Forall (fun sw => exists p, fst sw = SwPart p) sws.

(** every switch names a part and carries the value [b] *)
Definition parts_with (b : bool) (sws : list (Switch * bool)) : Prop :=
  Forall (fun sw => exists p, sw = (SwPart p, b)) sws.

(** Each binding that [action2key] lists under a name has that name for
    the stem of its action. *)
Definition a2k_sound (g : Globals) : Prop :=
  forall (a : string) (l : list (string * string)) (k d : string),
    action2key g !! a = Some l -> In (k, d) l -> action_stem d = a.

(** A justification that, given a text no longer than the width, returns
    a text of exactly that width and leaves the globals alone. *)
Definition pads (j : JustFn) : Prop :=
  forall (n : nat) (s : string) (g : Globals),
    len s <= n -> exists t, j n s g = Ok (t, g) /\ len t = n.

(** a style transform that keeps the length of the text *)
Definition keeps_len (f : string -> string) : Prop :=
  forall x, len (f x) = len x.

(** a table of three rows of different lengths *)
Definition ragged_table : list (list string) :=
  [["a"; "bb"; "ccc"]; ["dddd"; "e"]; ["f"; "gg"; "h"; "i"]].

(** two left-justified columns and a right-justified one, unstyled *)
Definition plain_fmt : list TabFmt :=
  [mkTabFmt 2 ljust nofmt; mkTabFmt 1 rjust nofmt; mkTabFmt 0 center nofmt].

Definition square_table : list (list string) :=
  [["a"; "bb"; "ccc"]; ["dddd"; "e"; "ff"]].

(** options none of which differs from its default *)
Definition unchanged_opts : KittyOpts string string :=
  mkKittyOpts string string
    [mkField "font_size" (VOther "11.0") false "11.0";
     mkField "background" (VColor "#000000" "  ") false "#000000"]
    5 ["ctrl"; "shift"] [] [] [] 5 [] [] [] [] [].

(** the state after [--diff --no-info] *)
Definition args_diff_no_info : CmdArgs :=
  parseArgs init [(SwDiff, true); (SwPart info, false)].

(** a sequence map with two continuations of [ctrl+a] *)
Definition sample_sequence_map : list (string * list (list string * string)) :=
  [("ctrl+a", [(["b"], "next_tab"); (["c"], "previous_tab")]);
   ("ctrl+x", [(["y"; "z"], "new_window")])].

(** a state whose [action2key] lists one binding *)
Definition indexed : Globals :=
  mkGlobals 1 {["goto_tab" := [("ctrl+1", "goto_tab 1")]]} EmptyString.

(** a host on which the user count fails with an exception the
    constructor of [IssueData] does not absorb *)
Definition probes_users_oserror : Probes :=
  mkProbes (mkUname "Linux" "box" "6.1.0" "#1 SMP" "x86_64") (Ok "box")
           "Wed Nov 04 2026" "12:00:00" (Ok "/dev/pts/3") false (Ok 0%Z)
           (Raise OSError).

End Further.

(** * Properties *)

(** ** Part selection *)

Module ArgsFacts.
Import Args Samples.

Ltac split_args a :=
  destruct a as [d s pl l de e i c m k co en ac w].

Ltac split_parts :=
  repeat match goal with
         | o : option bool |- _ => destruct o as [[|]|]
         end.

Lemma getattr_setattr (a : CmdArgs) (p q : Part) (v : option bool) :
  getattr (setattr a p v) q = if decide (p = q) then v else getattr a q.
Proof. split_args a. destruct p, q; reflexivity. Qed.

Lemma getattr_set_all_parts (a : CmdArgs) (v : option bool) (p : Part) :
  getattr (set_all_parts a v) p = v.
Proof. split_args a. destruct p; reflexivity. Qed.

Lemma getattr_fill_unset (a : CmdArgs) (v : bool) (p : Part) :
  getattr (fill_unset a v) p = Some (default v (getattr a p)).
Proof.
  split_args a.
  destruct i, c, m, k, co, en, ac; destruct p; reflexivity.
Qed.

Lemma flags_set_all_parts (a : CmdArgs) (v : option bool) :
  diff (set_all_parts a v) = diff a ∧ plain (set_all_parts a v) = plain a
  ∧ links (set_all_parts a v) = links a ∧ empty (set_all_parts a v) = empty a
  ∧ deleted (set_all_parts a v) = deleted a ∧ sort (set_all_parts a v) = sort a.
Proof. split_args a. repeat split; reflexivity. Qed.

Lemma flags_fill_unset (a : CmdArgs) (v : bool) :
  diff (fill_unset a v) = diff a ∧ plain (fill_unset a v) = plain a
  ∧ links (fill_unset a v) = links a ∧ empty (fill_unset a v) = empty a
  ∧ deleted (fill_unset a v) = deleted a ∧ sort (fill_unset a v) = sort a.
Proof.
  split_args a. destruct i, c, m, k, co, en, ac; repeat split; reflexivity.
Qed.

Lemma any_is_spec (a : CmdArgs) (v : bool) :
  any_is v (map (getattr a) parts) = true ↔ ∃ q, getattr a q = Some v.
Proof.
  unfold any_is. rewrite existsb_exists. split.
  - intros [x [Hin Hx]]. apply in_map_iff in Hin as [q [Hq _]]. exists q.
    subst x. destruct (getattr a q) as [b|]; [|discriminate].
    apply Bool.eqb_prop in Hx. congruence.
  - intros [q Hq]. exists (Some v). split.
    + apply in_map_iff. exists q. split; [exact Hq|]. destruct q; simpl; tauto.
    + apply Bool.eqb_reflx.
Qed.

(** the part flags after [resolveParts], in one equation *)
Lemma getattr_resolveParts (a : CmdArgs) (p : Part) :
  getattr (resolveParts a) p =
    if any_is true (map (getattr a) parts) then Some (default false (getattr a p))
    else if any_is false (map (getattr a) parts) then Some (default true (getattr a p))
    else Some true.
Proof.
  unfold resolveParts.
  set (a1 := if any_is true _ then _ else _).
  assert (Hkeep : ∀ x : CmdArgs,
             getattr (set_what (if plain (if diff x then set_empty x false else x)
                                then set_links (if diff x then set_empty x false else x) false
                                else (if diff x then set_empty x false else x))
                        (if diff (if plain (if diff x then set_empty x false else x)
                                then set_links (if diff x then set_empty x false else x) false
                                else (if diff x then set_empty x false else x))
                         then "DIFF of" else "ALL")) p = getattr x p).
  { intros x. split_args x. destruct d, pl, p; reflexivity. }
  rewrite Hkeep. subst a1.
  destruct (any_is true _); [apply getattr_fill_unset|].
  destruct (any_is false _); [apply getattr_fill_unset|].
  apply getattr_set_all_parts.
Qed.

(** the modifiers after [resolveParts] *)
Lemma flags_resolveParts (a : CmdArgs) :
  diff (resolveParts a) = diff a
  ∧ plain (resolveParts a) = plain a
  ∧ empty (resolveParts a) = (if diff a then false else empty a)
  ∧ links (resolveParts a) = (if plain a then false else links a)
  ∧ deleted (resolveParts a) = deleted a
  ∧ sort (resolveParts a) = sort a
  ∧ what (resolveParts a) = Some (if diff a then "DIFF of" else "ALL").
Proof.
  unfold resolveParts.
  assert (Hx : ∀ x : CmdArgs,
    diff x = diff a → plain x = plain a → links x = links a → empty x = empty a →
    deleted x = deleted a → sort x = sort a →
    let a2 := if diff x then set_empty x false else x in
    let a3 := if plain a2 then set_links a2 false else a2 in
    let r := set_what a3 (if diff a3 then "DIFF of" else "ALL") in
    diff r = diff a ∧ plain r = plain a
    ∧ empty r = (if diff a then false else empty a)
    ∧ links r = (if plain a then false else links a)
    ∧ deleted r = deleted a ∧ sort r = sort a
    ∧ what r = Some (if diff a then "DIFF of" else "ALL")).
  { intros x Hd Hp Hl He Hde Hs. split_args x. simpl in *. subst.
    destruct (diff a), (plain a); simpl; repeat split; reflexivity. }
  destruct (any_is true _); [|destruct (any_is false _)].
  - destruct (flags_fill_unset a false) as (? & ? & ? & ? & ? & ?). apply Hx; assumption.
  - destruct (flags_fill_unset a true) as (? & ? & ? & ? & ? & ?). apply Hx; assumption.
  - destruct (flags_set_all_parts a (Some true)) as (? & ? & ? & ? & ? & ?).
    apply Hx; assumption.
Qed.

Lemma CmdArgs_ext (a b : CmdArgs) :
  diff a = diff b → sort a = sort b → plain a = plain b → links a = links b →
  deleted a = deleted b → empty a = empty b → what a = what b →
  (∀ p, getattr a p = getattr b p) → a = b.
Proof.
  intros Hd Hs Hp Hl Hde He Hw Hg.
  pose proof (Hg info). pose proof (Hg config). pose proof (Hg mouse).
  pose proof (Hg keys). pose proof (Hg colors). pose proof (Hg env).
  pose proof (Hg actions).
  destruct a, b. simpl in *. subst. reflexivity.
Qed.

(** C3. Whatever the seven tri-state part flags are, [resolveParts] turns
    every unset part to false when some part is explicitly true; otherwise,
    when some part is explicitly false, it turns every unset part to true;
    when all seven are unset every part becomes true. Moreover diff mode
    clears the empty-action flag and plain mode clears the links flag. *)
Theorem resolveParts_rule (a : CmdArgs) :
  ((∃ q, getattr a q = Some true) →
     ∀ p, getattr a p = None → getattr (resolveParts a) p = Some false)
  ∧ ((∀ q, getattr a q ≠ Some true) → (∃ q, getattr a q = Some false) →
     ∀ p, getattr a p = None → getattr (resolveParts a) p = Some true)
  ∧ ((∀ q, getattr a q = None) → ∀ p, getattr (resolveParts a) p = Some true)
  ∧ (diff a = true → empty (resolveParts a) = false)
  ∧ (plain a = true → links (resolveParts a) = false).
Proof.
  split; [|split; [|split; [|split]]].
  - intros Hex p Hp. rewrite getattr_resolveParts.
    apply any_is_spec in Hex. rewrite Hex, Hp. reflexivity.
  - intros Hno Hex p Hp. rewrite getattr_resolveParts.
    destruct (any_is true _) eqn:E.
    + apply any_is_spec in E as [q Hq]. exfalso. exact (Hno q Hq).
    + apply any_is_spec in Hex. rewrite Hex, Hp. reflexivity.
  - intros Hall p. rewrite getattr_resolveParts.
    destruct (any_is true _) eqn:E.
    + apply any_is_spec in E as [q Hq]. rewrite Hall in Hq. discriminate.
    + destruct (any_is false _) eqn:E'; [|reflexivity].
      apply any_is_spec in E' as [q Hq]. rewrite Hall in Hq. discriminate.
  - intros Hd. destruct (flags_resolveParts a) as (_ & _ & He & _).
    rewrite He, Hd. reflexivity.
  - intros Hp. destruct (flags_resolveParts a) as (_ & _ & _ & Hl & _).
    rewrite Hl, Hp. reflexivity.
Qed.

Lemma resolveParts_rule_witness :
  getattr (resolveParts sample_args) keys = Some false
  ∧ empty (resolveParts sample_args) = false
  ∧ links (resolveParts sample_args) = false.
Proof.
  destruct (resolveParts_rule sample_args) as (H1 & _ & _ & H4 & H5).
  split; [|split].
  - apply H1; [exists env; reflexivity | reflexivity].
  - apply H4. reflexivity.
  - apply H5. reflexivity.
Defined.

(** C7. [resolveParts] is total and idempotent: after one resolution every
    part flag is true or false, never unset, and resolving an already
    resolved state changes nothing. *)
Theorem resolveParts_total_idempotent (a : CmdArgs) :
  (∀ p, ∃ b : bool, getattr (resolveParts a) p = Some b)
  ∧ resolveParts (resolveParts a) = resolveParts a.
Proof.
  assert (Htot : ∀ p, ∃ b : bool, getattr (resolveParts a) p = Some b).
  { intros p. rewrite getattr_resolveParts.
    destruct (any_is true _); [eauto|]. destruct (any_is false _); eauto. }
  split; [exact Htot|].
  destruct (flags_resolveParts a) as (Hd & Hp & He & Hl & Hde & Hs & Hw).
  destruct (flags_resolveParts (resolveParts a))
    as (Hd' & Hp' & He' & Hl' & Hde' & Hs' & Hw').
  apply CmdArgs_ext.
  - congruence.
  - congruence.
  - congruence.
  - rewrite Hl', Hp, Hl. destruct (plain a); reflexivity.
  - congruence.
  - rewrite He', Hd, He. destruct (diff a); reflexivity.
  - rewrite Hw', Hd, Hw. reflexivity.
  - intros p. rewrite (getattr_resolveParts (resolveParts a)).
    destruct (Htot p) as [b Hb]. rewrite Hb.
    destruct (any_is true _) eqn:Et; [reflexivity|].
    destruct (any_is false _) eqn:Ef; [reflexivity|].
    rewrite <- Hb. destruct b.
    + symmetry. exact Hb.
    + assert (any_is false (map (getattr (resolveParts a)) parts) = true) as Hc
        by (apply any_is_spec; eauto).
      congruence.
Qed.

(** C8. Setting the [debug_config] meta-flag to true turns diff mode on,
    turns the empty-action flag off, and sets every part flag to true but
    for the actions part, which it sets to false. *)
Theorem debug_flag_forces (a : CmdArgs) :
  let r := set_debug_config a (Some true) in
  diff r = true ∧ empty r = false
  ∧ ∀ p, getattr r p = Some (if decide (p = actions) then false else true).
Proof.
  split_args a. split; [reflexivity|]. split; [reflexivity|].
  intros p. destruct p; reflexivity.
Qed.

End ArgsFacts.

(** ** Strings *)

Module StrFacts.
Import Str.

Lemma app_nil_r (s : string) : s ++ EmptyString = s.
Proof. induction s as [|c s IH]; simpl; [reflexivity | now rewrite IH]. Qed.

Lemma app_assoc (a b c : string) : (a ++ b) ++ c = a ++ b ++ c.
Proof. induction a as [|x a IH]; simpl; [reflexivity | f_equal; exact IH]. Qed.

Lemma app_chr (p : string) (c : ascii) (s : string) :
  (p ++ chr c) ++ s = p ++ String c s.
Proof. rewrite app_assoc. reflexivity. Qed.

Lemma len_app (a b : string) : len (a ++ b) = len a + len b.
Proof. induction a as [|x a IH]; simpl; [reflexivity | f_equal; exact IH]. Qed.

Lemma len_spaces (n : nat) : len (spaces n) = n.
Proof. induction n as [|n IH]; simpl; [reflexivity | f_equal; exact IH]. Qed.

Lemma ceq_eq (a b : ascii) : ceq a b = true ↔ a = b.
Proof. apply Ascii.eqb_eq. Qed.

Lemma ceq_refl (a : ascii) : ceq a a = true.
Proof. apply Ascii.eqb_refl. Qed.

Lemma has_app (c : ascii) (a b : string) : has c (a ++ b) = has c a || has c b.
Proof.
  induction a as [|x a IH]; simpl; [reflexivity|].
  destruct (ceq c x); [reflexivity | exact IH].
Qed.

End StrFacts.

(** ** The splitters *)

Module ReFacts.
Import Str Re StrFacts.

Lemma split_mods_app (s pending m k : string) :
  split_mods pending s = (m, k) → m ++ k = pending ++ s.
Proof.
  revert pending m k. induction s as [|c r IH]; intros pending m k; simpl.
  - intros [= <- <-]. simpl. now rewrite app_nil_r.
  - destruct (ceq c PLUS) eqn:Ep.
    + apply ceq_eq in Ep. subst c. destruct pending as [|x p].
      * intros [= <- <-]. reflexivity.
      * destruct (split_mods EmptyString r) as [m' k'] eqn:Er.
        intros [= <- <-]. apply IH in Er. simpl in Er.
        simpl. f_equal. rewrite app_assoc. simpl. now rewrite Er.
    + destruct (ceq c SP).
      * intros [= <- <-]. reflexivity.
      * intros Hs. apply IH in Hs. now rewrite app_chr in Hs.
Qed.

Lemma span_nonspace_app (s a b : string) :
  span_nonspace s = (a, b) → a ++ b = s.
Proof.
  revert a b. induction s as [|c r IH]; intros a b; simpl.
  - intros [= <- <-]. reflexivity.
  - destruct (ceq c SP).
    + intros [= <- <-]. reflexivity.
    + destruct (span_nonspace r) as [a' b'] eqn:Er.
      intros [= <- <-]. simpl. f_equal. now apply IH.
Qed.

Lemma shortcutSplit_app (txt : string) :
  fst (shortcutSplit txt) ++ snd (shortcutSplit txt) = txt.
Proof.
  unfold shortcutSplit.
  destruct (split_mods EmptyString txt) as [m k] eqn:E.
  apply split_mods_app in E. destruct (has LF k); simpl; [reflexivity | exact E].
Qed.

Lemma actionSplit_app (txt : string) :
  fst (actionSplit txt) ++ snd (actionSplit txt) = txt.
Proof.
  unfold actionSplit.
  destruct (span_nonspace txt) as [a b] eqn:E.
  apply span_nonspace_app in E.
  destruct a as [|c a]; [simpl; apply app_nil_r|].
  destruct b as [|d r]; [simpl; apply app_nil_r|].
  destruct (has LF r); simpl; [apply app_nil_r | exact E].
Qed.

(** C10. Splitting loses nothing: the modifier prefix and the bare key that
    [shortcutSplit] returns concatenate back to the text it was given, and
    so do the action name and the argument string of [actionSplit]. *)
Theorem splitters_lossless (s : string) :
  fst (shortcutSplit s) ++ snd (shortcutSplit s) = s
  ∧ fst (actionSplit s) ++ snd (actionSplit s) = s.
Proof. split; [apply shortcutSplit_app | apply actionSplit_app]. Qed.

End ReFacts.

(** ** The binding differ *)

Module DiffFacts.
Import Str Args Re Diff.



Lemma elem_of_changed_of (ef ei : gmap string string) (k : string) :
  k ∈ changed_of ef ei ↔ k ∈ dom ef ∩ dom ei ∧ ef !! k ≠ ei !! k.
Proof. unfold changed_of. rewrite elem_of_filter. tauto. Qed.



End DiffFacts.

(** ** The table formatter *)

Module TableFacts.
Import Str Style Table StrFacts.

Lemma lookup_map {A B} (f : A → B) (l : list A) (i : nat) :
  map f l !! i = f <$> (l !! i).
Proof.
  revert i. induction l as [|x l IH]; intros [|i]; simpl; try reflexivity.
  apply IH.
Qed.

Lemma max_len_ub (col : list string) (v : string) :
  In v col → (len v ≤ max_len col)%nat.
Proof.
  unfold max_len. induction col as [|x col IH]; simpl; [tauto|].
  intros [->|Hin]; [lia|]. specialize (IH Hin). lia.
Qed.

Lemma max_len_attained (col : list string) :
  col ≠ [] → ∃ v, In v col ∧ len v = max_len col.
Proof.
  unfold max_len. induction col as [|x col IH]; [congruence|]. intros _.
  destruct col as [|y col].
  - exists x. simpl. split; [tauto | lia].
  - destruct IH as (v & Hin & Hv); [congruence|].
    simpl in *. destruct (Nat.max_spec (len x)
      (Nat.max (len y) (fold_right Nat.max 0 (map len col)))) as [[_ ->]|[_ ->]].
    + exists v. tauto.
    + exists x. tauto.
Qed.

(** the columns of a rectangular, non-empty table *)
Lemma zip_star_rect (n : nat) (a : list (list string)) :
  a ≠ [] → Forall (fun row => length row = n) a →
  length (zip_star a) = n
  ∧ ∀ j col, zip_star a !! j = Some col →
             Forall2 (fun row v => row !! j = Some v) a col.
Proof.
  induction a as [|r rest IH]; [congruence|]. intros _ Hrect.
  apply Forall_cons in Hrect as [Hr Hrest].
  destruct rest as [|r2 rest'].
  - simpl. split; [now rewrite length_map|].
    intros j col Hj. rewrite lookup_map in Hj.
    destruct (r !! j) as [x|] eqn:Ex; [|discriminate].
    injection Hj as <-. constructor; [exact Ex | constructor].
  - destruct IH as [Hlen Hcols]; [congruence | exact Hrest |].
    change (zip_star (r :: r2 :: rest'))
      with (zip_with cons r (zip_star (r2 :: rest'))).
    split; [rewrite length_zip_with; lia|].
    intros j col Hj. apply lookup_zip_with_Some in Hj as (x & c & -> & Hx & Hc).
    constructor; [exact Hx | apply Hcols; exact Hc].
Qed.

(** the width of column [j] is the greatest raw length in that column *)
Lemma field_lens_max (n : nat) (a : list (list string)) :
  a ≠ [] → Forall (fun row => length row = n) a →
  length (field_lens a) = n
  ∧ ∀ j w, field_lens a !! j = Some w →
      (∀ row v, In row a → row !! j = Some v → (len v ≤ w)%nat)
      ∧ (∃ row v, In row a ∧ row !! j = Some v ∧ len v = w).
Proof.
  intros Hne Hrect. destruct (zip_star_rect n a Hne Hrect) as [Hlen Hcols].
  unfold field_lens. split; [now rewrite length_map|].
  intros j w Hj. rewrite lookup_map in Hj.
  destruct (zip_star a !! j) as [col|] eqn:Ec; [|discriminate].
  injection Hj as <-. specialize (Hcols j col Ec). split.
  - intros row v Hin Hv. apply max_len_ub.
    clear -Hcols Hin Hv. induction Hcols as [|r c a' col' Hrc _ IH]; [destruct Hin|].
    destruct Hin as [->|Hin]; [left; congruence | right; auto].
  - destruct (max_len_attained col) as (v & Hin & Hv).
    { destruct Hcols; [elim Hne; reflexivity | congruence]. }
    generalize dependent (max_len col). intros w Hv.
    clear -Hcols Hin Hv. induction Hcols as [|r c a' col' Hrc _ IH]; [destruct Hin|].
    destruct Hin as [->|Hin].
    + exists r, v. split; [left; reflexivity | tauto].
    + destruct (IH Hin) as (row & v' & ? & ? & ?). exists row, v'.
      split; [right; assumption | tauto].
Qed.

Lemma alike_bind {A A' B B'} (P : A → A' → Prop) (Q : B → B' → Prop)
    (m : M A) (m' : M A') (k : A → M B) (k' : A' → M B') (g : Globals) :
  alike P (m g) (m' g) →
  (∀ x y g1, P x y → alike Q (k x g1) (k' y g1)) →
  alike Q (bind m k g) (bind m' k' g).
Proof.
  intros Hm Hk. unfold bind.
  destruct (m g) as [[x g1]|e], (m' g) as [[y g1']|e']; simpl in Hm;
    try contradiction; [|exact Hm].
  destruct Hm as [<- Hxy]. apply Hk. exact Hxy.
Qed.

Lemma alike_ret {A A'} (P : A → A' → Prop) (x : A) (y : A') (g : Globals) :
  P x y → alike P (ret x g) (ret y g).
Proof. intros Hxy. split; [reflexivity | exact Hxy]. Qed.

(** [map_m] over a list and over its image by [h] *)
Lemma alike_map_m {A A' B B'} (P : B → B' → Prop) (h : A → A')
    (f : A → M B) (f' : A' → M B') (l : list A) :
  (∀ x g, In x l → alike P (f x g) (f' (h x) g)) →
  ∀ g, alike (Forall2 P) (map_m f l g) (map_m f' (map h l) g).
Proof.
  induction l as [|x l IH]; intros Hf g.
  - apply alike_ret. constructor.
  - change (map_m f (x :: l)) with (bind (f x) (fun y => bind (map_m f l)
                                       (fun ys => ret (y :: ys)))).
    change (map_m f' (map h (x :: l)))
      with (bind (f' (h x)) (fun y => bind (map_m f' (map h l))
                                       (fun ys => ret (y :: ys)))).
    apply alike_bind with (P := P); [apply Hf; left; reflexivity|].
    intros y y' g1 Hy.
    apply alike_bind with (P := Forall2 P).
    + apply IH. intros x0 g0 H0. apply Hf. right. exact H0.
    + intros ys ys' g2 Hys. apply alike_ret. constructor; assumption.
Qed.

End TableFacts.

Module TableClaims.
Import Str Style Table StrFacts TableFacts Samples TableSpec.

Lemma formatTable_joins (a : list (list string)) (fmt : list TabFmt) (g : Globals) :
  formatTable a fmt g =
    match formatTable_cells a fmt g with
    | Ok (rows, g') => Ok (map (fun rc => (fst rc, Str.concat (snd rc))) rows, g')
    | Raise e => Raise e
    end.
Proof.
  unfold formatTable, formatTable_cells. destruct a as [|r0 a0]; [reflexivity|].
  generalize (field_lens (r0 :: a0)). intros widths.
  generalize (r0 :: a0). intros l. revert g.
  induction l as [|row l IH]; intros g; simpl; [reflexivity|].
  unfold bind in *.
  destruct (formatCells fmt widths row g) as [[cells g1]|e]; simpl; [|reflexivity].
  rewrite IH.
  destruct (map_m _ l g1) as [[rows g2]|e]; reflexivity.
Qed.

Lemma nth_of_lookup (row : list string) (j : nat) (v : string) :
  row !! j = Some v → nth j row EmptyString = v.
Proof.
  revert j. induction row as [|x row IH]; intros [|j]; simpl; try discriminate.
  - intros [= ->]. reflexivity.
  - apply IH.
Qed.

(** the widths [formatTable] computes are the column maxima *)
Lemma field_lens_column_max (n : nat) (a : list (list string)) :
  a ≠ [] → Forall (fun row => length row = n) a →
  field_lens a = map (column_max a) (seq 0 n).
Proof.
  intros Hne Hrect. destruct (zip_star_rect n a Hne Hrect) as [Hlen Hcols].
  apply list_eq. intros j. unfold field_lens. rewrite !lookup_map.
  destruct (decide (j < n)%nat) as [Hj|Hj].
  - rewrite lookup_seq_lt by exact Hj. simpl.
    destruct (zip_star a !! j) as [col|] eqn:Ec.
    + simpl. f_equal. specialize (Hcols j col Ec).
      unfold max_len, column_max. f_equal.
      clear -Hcols. induction Hcols as [|row v a' col' Hv _ IH]; [reflexivity|].
      simpl. rewrite IH, (nth_of_lookup row j v Hv). reflexivity.
    + apply lookup_ge_None in Ec. lia.
  - rewrite (lookup_ge_None_2 (zip_star a)) by lia.
    rewrite (lookup_ge_None_2 (seq 0 n)) by (rewrite length_seq; lia).
    reflexivity.
Qed.

(** the cells of a row are its justified texts, at the column maxima, with
    indent and style put on *)
Lemma cells_justified (a : list (list string)) (row : list string) (fmt : list TabFmt)
    (j m : nat) (g : Globals) :
  length row = m → length fmt = m →
  alike (fun cs ts => cs = style_cells fmt ts)
        (formatCells fmt (map (column_max a) (seq j m)) row g)
        (justify_from a j row fmt g).
Proof.
  unfold formatCells.
  revert fmt j m g. induction row as [|v row IH]; intros [|f fmt] j [|m] g;
    simpl; try discriminate.
  - intros _ _. split; reflexivity.
  - intros Hr Hf. unfold bind.
    destruct (justFn f (column_max a j) v g) as [[t g1]|e]; [|reflexivity].
    unfold ret at 1.
    assert (Hrec := IH fmt (S j) m g1 ltac:(lia) ltac:(lia)).
    destruct (map_m formatCell (zip3 row fmt (map (column_max a) (seq (S j) m))) g1)
      as [[cs g2]|e1], (justify_from a (S j) row fmt g1) as [[ts g2']|e2];
      simpl in Hrec; try contradiction; [|exact Hrec].
    destruct Hrec as [<- ->]. split; reflexivity.
Qed.

Lemma drop_spaces_app (n : nat) (s : string) : drop n (spaces n ++ s) = s.
Proof. induction n as [|n IH]; simpl; [destruct s; reflexivity | exact IH]. Qed.

(** undoing the styles of the cells of a row gives the cells that the
    identity style makes *)
Lemma cells_unstyled (fmt : list TabFmt) (uns : list (string → string)) :
  Forall2 (fun f u => ∀ x, u (fmtFn f x) = x) fmt uns →
  ∀ (row : list string) (widths : list nat) (g : Globals),
    alike (fun cs cs' => unstyle_row fmt uns cs = cs')
          (formatCells fmt widths row g)
          (formatCells (map unstyled fmt) widths row g).
Proof.
  unfold formatCells.
  induction 1 as [|f u fmt uns Hu _ IH]; intros row widths g.
  - destruct row; simpl; split; reflexivity.
  - destruct row as [|v row]; [split; reflexivity|].
    destruct widths as [|w widths]; [split; reflexivity|].
    simpl. unfold bind.
    destruct (justFn f w v g) as [[t g1]|e]; [|reflexivity].
    unfold ret at 1 3.
    specialize (IH row widths g1).
    destruct (map_m formatCell (zip3 row fmt widths) g1) as [[cs g2]|e1],
             (map_m formatCell (zip3 row (map unstyled fmt) widths) g1)
               as [[cs' g2']|e2];
      simpl in IH; try contradiction; [|exact IH].
    destruct IH as [<- <-]. split; [reflexivity|].
    simpl. rewrite drop_spaces_app, Hu. reflexivity.
Qed.

Lemma alike_map_m_same {A B B'} (P : B → B' → Prop) (f : A → M B) (f' : A → M B')
    (l : list A) :
  (∀ x g, In x l → alike P (f x g) (f' x g)) →
  ∀ g, alike (Forall2 P) (map_m f l g) (map_m f' l g).
Proof.
  intros Hf g. pose proof (alike_map_m P (fun x => x) f f' l Hf g) as Hm.
  now rewrite map_id in Hm.
Qed.

(** C4. For a non-empty rectangular table with as many column formats as
    columns, the width [formatTable] uses for a column is the greatest raw
    length of the cells of that column: each cell is the text of the row
    justified to that width by the justification of its column, with the
    indent put before it and the style applied after it. So, whatever
    takes the style of each column off, the formatted cells with their
    styles undone are the cells that the identity style gives, of one and
    the same length. An empty list of rows gives an empty result. *)
Theorem formatTable_widths_ignore_style (n : nat) (a : list (list string))
    (fmt : list TabFmt) (uns : list (string → string)) :
  a ≠ [] →
  Forall (fun row => length row = n) a →
  length fmt = n →
  Forall2 (fun f u => ∀ x, u (fmtFn f x) = x) fmt uns →
  (field_lens a = map (column_max a) (seq 0 n)
   ∧ ∀ j w, field_lens a !! j = Some w →
       (∀ row v, In row a → row !! j = Some v → (len v ≤ w)%nat)
       ∧ (∃ row v, In row a ∧ row !! j = Some v ∧ len v = w))
  ∧ (∀ g, alike (Forall2 (fun r r' =>
                    fst r = fst r' ∧ snd r = style_cells fmt (snd r')))
                (formatTable_cells a fmt g)
                (justified_rows a fmt g))
  ∧ (∀ g, alike (Forall2 (fun r r' =>
                    fst r = fst r'
                    ∧ unstyle_row fmt uns (snd r) = snd r'
                    ∧ map len (unstyle_row fmt uns (snd r)) = map len (snd r')))
                (formatTable_cells a fmt g)
                (formatTable_cells a (map unstyled fmt) g))
  ∧ (∀ g, formatTable a fmt g =
          match formatTable_cells a fmt g with
          | Ok (rows, g') => Ok (map (fun rc => (fst rc, Str.concat (snd rc))) rows, g')
          | Raise e => Raise e
          end)
  ∧ formatTable [] fmt = ret [].
Proof.
  intros Hne Hrect Hfmt Hun.
  split; [split; [exact (field_lens_column_max n a Hne Hrect)
                 | exact (proj2 (field_lens_max n a Hne Hrect))]|].
  split; [|split; [|split; [intros g; apply formatTable_joins | reflexivity]]].
  - intros g. unfold formatTable_cells, justified_rows.
    rewrite (field_lens_column_max n a Hne Hrect).
    destruct a as [|r0 a0]; [congruence|].
    set (a := r0 :: a0) in *.
    apply alike_map_m_same. intros row g0 Hin.
    apply alike_bind with (P := fun cs ts => cs = style_cells fmt ts).
    + apply cells_justified; [|exact Hfmt].
      rewrite Forall_forall in Hrect. apply Hrect. apply list_elem_of_In. exact Hin.
    + intros cs ts g1 ->. apply alike_ret. split; reflexivity.
  - intros g. unfold formatTable_cells. destruct a as [|r0 a0]; [congruence|].
    generalize (field_lens (r0 :: a0)). intros widths.
    apply alike_map_m_same. intros row g0 _.
    apply alike_bind with (P := fun cs cs' => unstyle_row fmt uns cs = cs').
    + apply cells_unstyled. exact Hun.
    + intros cs cs' g1 Hcs. apply alike_ret.
      split; [reflexivity|]. split; [exact Hcs | cbn [snd]; now rewrite Hcs].
Qed.

Lemma take_app_len (x b : string) : take (len x) (x ++ b) = x.
Proof. induction x as [|c x IH]; simpl; [destruct b; reflexivity | now rewrite IH]. Qed.

Lemma drop_app_len (p r : string) : drop (len p) (p ++ r) = r.
Proof. induction p as [|c p IH]; simpl; [destruct r; reflexivity | exact IH]. Qed.

(** [unwrap] takes off what a style of fixed width puts around a text *)
Lemma unwrap_wrap (pre suf x : string) :
  unwrap (len pre) (len suf) (pre ++ x ++ suf) = x.
Proof.
  unfold unwrap. rewrite drop_app_len, !len_app.
  replace (len pre + (len x + len suf) - len pre - len suf)%nat with (len x) by lia.
  apply take_app_len.
Qed.

(** the SGR styles of the worked examples can be taken off *)
Lemma mapping_uns_undo :
  Forall2 (fun f u => ∀ x, u (fmtFn f x) = x) (@mapping_fmt Sgr.sgr_styling) mapping_uns.
Proof.
  repeat constructor; intros x;
    first [ reflexivity
          | exact (unwrap_wrap (Sgr.sgr "33") (Sgr.sgr "39") x)
          | exact (unwrap_wrap (Sgr.sgr "32") (Sgr.sgr "39") x)
          | exact (unwrap_wrap (Sgr.sgr "31") (Sgr.sgr "39") x)
          | exact (unwrap_wrap (Sgr.sgr "2") (Sgr.sgr "22") x) ].
Qed.

Lemma formatTable_widths_ignore_style_witness :
  field_lens mapping_table = [11; 3; 5; 12; 17]
  ∧ alike (Forall2 (fun r r' =>
             fst r = fst r'
             ∧ snd r = style_cells (@mapping_fmt Sgr.sgr_styling) (snd r')))
          (formatTable_cells mapping_table (@mapping_fmt Sgr.sgr_styling) fresh)
          (justified_rows mapping_table (@mapping_fmt Sgr.sgr_styling) fresh)
  ∧ alike (Forall2 (fun r r' =>
             fst r = fst r'
             ∧ unstyle_row (@mapping_fmt Sgr.sgr_styling) mapping_uns (snd r) = snd r'
             ∧ map len (unstyle_row (@mapping_fmt Sgr.sgr_styling) mapping_uns (snd r))
               = map len (snd r')))
          (formatTable_cells mapping_table (@mapping_fmt Sgr.sgr_styling) fresh)
          (formatTable_cells mapping_table
             (map unstyled (@mapping_fmt Sgr.sgr_styling)) fresh).
Proof.
  pose proof (formatTable_widths_ignore_style 5 mapping_table
                (@mapping_fmt Sgr.sgr_styling) mapping_uns) as Hthm.
  destruct Hthm as (_ & Hj & Hu & _).
  - discriminate.
  - repeat constructor.
  - reflexivity.
  - exact mapping_uns_undo.
  - split; [reflexivity|]. split; [exact (Hj fresh) | exact (Hu fresh)].
Defined.

End TableClaims.

(** ** Order and sorting *)

Module SortFacts.
Import Str Sorting StrFacts.

Lemma nat_of_ascii_inj (x y : ascii) : nat_of_ascii x = nat_of_ascii y → x = y.
Proof.
  intros Hxy. rewrite <- (ascii_nat_embedding x), <- (ascii_nat_embedding y).
  now rewrite Hxy.
Qed.

Lemma cmp_refl (a : string) : cmp a a = Eq.
Proof.
  induction a as [|x a IH]; simpl; [reflexivity|].
  now rewrite Nat.compare_refl.
Qed.

Lemma cmp_eq (a b : string) : cmp a b = Eq → a = b.
Proof.
  revert b. induction a as [|x a IH]; intros [|y b]; simpl; try discriminate.
  - reflexivity.
  - destruct (Nat.compare_spec (nat_of_ascii x) (nat_of_ascii y)) as [Hxy| |];
      try discriminate.
    intros Hab. apply nat_of_ascii_inj in Hxy. subst y. f_equal. now apply IH.
Qed.

Lemma cmp_antisym (a b : string) : cmp b a = CompOpp (cmp a b).
Proof.
  revert b. induction a as [|x a IH]; intros [|y b]; simpl; try reflexivity.
  rewrite (Nat.compare_antisym (nat_of_ascii x) (nat_of_ascii y)).
  destruct (Nat.compare (nat_of_ascii x) (nat_of_ascii y)); simpl;
    [apply IH | reflexivity | reflexivity].
Qed.

Lemma cmp_lt_trans (a b c : string) :
  cmp a b = Lt → cmp b c = Lt → cmp a c = Lt.
Proof.
  revert b c. induction a as [|x a IH]; intros [|y b] [|z c]; simpl;
    try discriminate; try reflexivity.
  destruct (Nat.compare_spec (nat_of_ascii x) (nat_of_ascii y)) as [Hxy|Hxy|Hxy];
    try discriminate;
    destruct (Nat.compare_spec (nat_of_ascii y) (nat_of_ascii z)) as [Hyz|Hyz|Hyz];
    try discriminate; intros Hab Hbc.
  - rewrite Hxy, Hyz, Nat.compare_refl. eapply IH; eassumption.
  - rewrite Hxy. apply Nat.compare_lt_iff in Hyz. now rewrite Hyz.
  - rewrite <- Hyz. apply Nat.compare_lt_iff in Hxy. now rewrite Hxy.
  - assert (Hxz : (nat_of_ascii x < nat_of_ascii z)%nat) by lia.
    apply Nat.compare_lt_iff in Hxz. now rewrite Hxz.
Qed.

Lemma leb_total (a b : string) : leb a b = true ∨ leb b a = true.
Proof.
  unfold leb. rewrite (cmp_antisym a b). destruct (cmp a b); simpl; tauto.
Qed.

Lemma leb_trans (a b c : string) : leb a b = true → leb b c = true → leb a c = true.
Proof.
  unfold leb. destruct (cmp a b) eqn:Eab; try discriminate;
    destruct (cmp b c) eqn:Ebc; try discriminate; intros _ _.
  - apply cmp_eq in Eab. subst b. now rewrite Ebc.
  - apply cmp_eq in Eab. subst b. now rewrite Ebc.
  - apply cmp_eq in Ebc. subst c. now rewrite Eab.
  - now rewrite (cmp_lt_trans a b c Eab Ebc).
Qed.

Lemma pair_leb_total (a b : string * string) :
  pair_leb a b = true ∨ pair_leb b a = true.
Proof.
  unfold pair_leb. rewrite (cmp_antisym (fst a) (fst b)).
  destruct (cmp (fst a) (fst b)); simpl; try tauto. apply leb_total.
Qed.

Lemma pair_leb_trans (a b c : string * string) :
  pair_leb a b = true → pair_leb b c = true → pair_leb a c = true.
Proof.
  unfold pair_leb.
  destruct (cmp (fst a) (fst b)) eqn:Eab; try discriminate;
    destruct (cmp (fst b) (fst c)) eqn:Ebc; try discriminate.
  - apply cmp_eq in Eab. rewrite Eab, Ebc. apply leb_trans.
  - apply cmp_eq in Eab. rewrite Eab, Ebc. reflexivity.
  - apply cmp_eq in Ebc. rewrite <- Ebc, Eab. reflexivity.
  - rewrite (cmp_lt_trans _ _ _ Eab Ebc). reflexivity.
Qed.

(** the first components of an ordered pair of pairs are ordered *)
Lemma pair_leb_fst (a b : string * string) :
  pair_leb a b = true → cmp (fst a) (fst b) ≠ Gt.
Proof. unfold pair_leb. destruct (cmp (fst a) (fst b)); congruence. Qed.

Section Insertion.
Context {A : Type} (le : A → A → bool).
Hypothesis le_total : ∀ a b, le a b = true ∨ le b a = true.
Hypothesis le_trans : ∀ a b c, le a b = true → le b c = true → le a c = true.

Lemma insert_perm (x : A) (l : list A) : Permutation (x :: l) (insert le x l).
Proof.
  induction l as [|y l IH]; simpl; [reflexivity|].
  destruct (le x y); [reflexivity|].
  rewrite perm_swap. now apply perm_skip.
Qed.

Lemma sorted_perm (l : list A) : Permutation l (sorted le l).
Proof.
  induction l as [|x l IH]; simpl; [reflexivity|].
  rewrite <- insert_perm. now apply perm_skip.
Qed.

Lemma insert_sorted (x : A) (l : list A) :
  StronglySorted (fun a b => le a b = true) l →
  StronglySorted (fun a b => le a b = true) (insert le x l).
Proof.
  induction l as [|y l IH]; simpl; intros Hs.
  - constructor; constructor.
  - apply StronglySorted_inv in Hs as [Hl Hy].
    destruct (le x y) eqn:Exy.
    + constructor; [constructor; assumption|].
      constructor; [exact Exy|].
      eapply Forall_impl; [exact Hy|]. intros z Hz. simpl in Hz.
      eapply le_trans; eassumption.
    + constructor; [apply IH; exact Hl|].
      assert (Hyx : le y x = true) by (destruct (le_total x y); congruence).
      rewrite <- (insert_perm x l). constructor; assumption.
Qed.

Lemma sorted_sorted (l : list A) :
  StronglySorted (fun a b => le a b = true) (sorted le l).
Proof.
  induction l as [|x l IH]; simpl; [constructor | now apply insert_sorted].
Qed.

End Insertion.

(** in a strongly sorted list, an earlier element is below a later one *)
Lemma StronglySorted_lookup {A : Type} (R : A → A → Prop) (l : list A)
    (i j : nat) (x y : A) :
  StronglySorted R l → (i < j)%nat → l !! i = Some x → l !! j = Some y → R x y.
Proof.
  intros Hs. revert i j. induction Hs as [|a l Hs IH Ha]; intros i j Hij Hi Hj.
  - discriminate.
  - destruct j as [|j]; [lia|]. simpl in Hj. destruct i as [|i].
    + injection Hi as <-. rewrite Forall_forall in Ha. apply Ha.
      eapply list_elem_of_lookup_2. exact Hj.
    + simpl in Hi. apply (IH i j); [lia | assumption | assumption].
Qed.

End SortFacts.

(** ** The key-centric listing order *)

Module GroupingFacts.
Import Str Re Sorting Diff Grouping StrFacts SortFacts.

Lemma cmp_head_eq (x : ascii) (a b : string) :
  cmp (String x a) (String x b) = cmp a b.
Proof. simpl. now rewrite Nat.compare_refl. Qed.

(** two texts that differ at their first character compare the same way
    whatever follows *)
Lemma cmp_head_ne (x y : ascii) :
  x ≠ y → ∃ c, c ≠ Eq ∧ ∀ a b, cmp (String x a) (String y b) = c.
Proof.
  intros Hne. exists (Nat.compare (nat_of_ascii x) (nat_of_ascii y)). split.
  - intros Hc. apply Nat.compare_eq in Hc. apply nat_of_ascii_inj in Hc. congruence.
  - intros a b. simpl.
    destruct (Nat.compare (nat_of_ascii x) (nat_of_ascii y)) eqn:E; try reflexivity.
    apply Nat.compare_eq in E. apply nat_of_ascii_inj in E. congruence.
Qed.

Lemma contains_cons (p : string) (c : ascii) (r : string) :
  contains p (String c r) = startswith p (String c r) || contains p r.
Proof. reflexivity. Qed.

Lemma contains_false_inv (p : string) (c : ascii) (r : string) :
  contains p (String c r) = false →
  startswith p (String c r) = false ∧ contains p r = false.
Proof. rewrite contains_cons. apply orb_false_iff. Qed.

Ltac by_head Hne :=
  let c := fresh "c" in let Hc := fresh "Hc" in let Hab := fresh "Hab" in
  destruct (cmp_head_ne _ _ Hne) as (c & Hc & Hab);
  exists c; split; [exact Hc | intros; simpl String.append; apply Hab].

(** the separator against a key that does not start with [" zzz"] *)
Lemma sep_vs_key (K : string) :
  K ≠ EmptyString → startswith " zzz" K = false →
  ∃ c, c ≠ Eq ∧ ∀ M M', cmp (" zzz " ++ M) (K ++ " zzz " ++ M') = c.
Proof.
  intros Hne Hsw.
  destruct K as [|c1 K]; [congruence|].
  destruct (ascii_dec " " c1) as [<-|H1]; [|by_head H1].
  destruct K as [|c2 K];
    [exists Gt; split; [discriminate | intros; reflexivity]|].
  destruct (ascii_dec "z" c2) as [<-|H2];
    [|destruct (cmp_head_ne _ _ H2) as (c & Hc & Hab); exists c;
      split; [exact Hc | intros; simpl String.append; rewrite cmp_head_eq; apply Hab]].
  destruct K as [|c3 K];
    [exists Gt; split; [discriminate | intros; reflexivity]|].
  destruct (ascii_dec "z" c3) as [<-|H3];
    [|destruct (cmp_head_ne _ _ H3) as (c & Hc & Hab); exists c;
      split; [exact Hc | intros; simpl String.append; rewrite !cmp_head_eq; apply Hab]].
  destruct K as [|c4 K];
    [exists Gt; split; [discriminate | intros; reflexivity]|].
  destruct (ascii_dec "z" c4) as [<-|H4];
    [|destruct (cmp_head_ne _ _ H4) as (c & Hc & Hab); exists c;
      split; [exact Hc | intros; simpl String.append; rewrite !cmp_head_eq; apply Hab]].
  simpl in Hsw. discriminate.
Qed.

(** Two different keys without [" zzz"] order their sort keys the same way
    whatever the modifiers are. *)
Lemma keys_decide (K K' : string) :
  K ≠ K' → contains " zzz" K = false → contains " zzz" K' = false →
  ∃ c, c ≠ Eq ∧ ∀ M M', cmp (K ++ " zzz " ++ M) (K' ++ " zzz " ++ M') = c.
Proof.
  revert K'. induction K as [|x K IH]; intros K' Hne HK HK'.
  - destruct K' as [|y K']; [congruence|].
    apply contains_false_inv in HK' as [Hsw _].
    apply sep_vs_key; [discriminate | exact Hsw].
  - destruct K' as [|y K'].
    + apply contains_false_inv in HK as [Hsw _].
      destruct (sep_vs_key (String x K)) as (c & Hc & Hab);
        [discriminate | exact Hsw |].
      exists (CompOpp c). split; [destruct c; simpl; congruence|].
      intros M M'. rewrite cmp_antisym. f_equal. apply Hab.
    + apply contains_false_inv in HK as [_ HK].
      apply contains_false_inv in HK' as [_ HK'].
      destruct (ascii_dec x y) as [<-|Hxy].
      * destruct (IH K') as (c & Hc & Hab); [congruence | assumption | assumption |].
        exists c. split; [exact Hc|]. intros M M'.
        simpl String.append. rewrite cmp_head_eq. apply Hab.
      * by_head Hxy.
Qed.

Lemma shortcutSortKey_parts (t : string) :
  shortcutSortKey t = bare_key t ++ " zzz " ++ mod_prefix t.
Proof.
  unfold shortcutSortKey, bare_key, mod_prefix.
  destruct (shortcutSplit t) as [m k]. reflexivity.
Qed.

(** an entry of the sorted listing comes with its sort key *)
Lemma sorted_triggers_lookup (ts : list string) (i : nat) (x : string) :
  sorted_triggers ts !! i = Some x →
  In x ts
  ∧ sorted pair_leb (map (fun s => (shortcutSortKey s, s)) ts) !! i
    = Some (shortcutSortKey x, x).
Proof.
  unfold sorted_triggers. intros Hi.
  rewrite TableFacts.lookup_map in Hi.
  destruct (sorted pair_leb _ !! i) as [p|] eqn:Ep; [|discriminate].
  injection Hi as <-.
  assert (Hin : In p (map (fun s => (shortcutSortKey s, s)) ts)).
  { eapply Permutation_in; [symmetry; apply sorted_perm|].
    apply list_elem_of_In. eapply list_elem_of_lookup_2. exact Ep. }
  apply in_map_iff in Hin as (t & <- & Ht). simpl. split; [exact Ht | reflexivity].
Qed.

(** C5, as the code has it. When no bare key contains the text [" zzz"]
    (a space and three z, the start of the separator the sort key puts
    between key and modifiers), sorting the triggers by the key-centric
    sort key places all triggers that share a bare key in one contiguous
    block, whatever their modifiers. *)
Theorem sort_groups_bare_keys (ts : list string) :
  (∀ t, In t ts → contains " zzz" (bare_key t) = false) →
  grouped bare_key (sorted_triggers ts).
Proof.
  intros Hz i j k x y z Hij Hjk Hi Hj Hk Hxz.
  apply sorted_triggers_lookup in Hi as [Hx Hi].
  apply sorted_triggers_lookup in Hj as [Hy Hj].
  apply sorted_triggers_lookup in Hk as [Hzin Hk].
  pose proof (sorted_sorted pair_leb pair_leb_total pair_leb_trans
                (map (fun s => (shortcutSortKey s, s)) ts)) as Hs.
  pose proof (StronglySorted_lookup _ _ i j _ _ Hs Hij Hi Hj) as Hxy.
  pose proof (StronglySorted_lookup _ _ j k _ _ Hs Hjk Hj Hk) as Hyz.
  apply pair_leb_fst in Hxy. apply pair_leb_fst in Hyz. simpl in Hxy, Hyz.
  destruct (string_dec (bare_key y) (bare_key x)) as [Heq|Hne]; [exact Heq|].
  exfalso.
  destruct (keys_decide (bare_key x) (bare_key y)) as (c & Hc & Hab);
    [congruence | apply Hz; exact Hx | apply Hz; exact Hy |].
  rewrite !shortcutSortKey_parts in Hxy, Hyz.
  rewrite Hab in Hxy.
  rewrite cmp_antisym in Hyz. rewrite <- Hxz, Hab in Hyz.
  destruct c; simpl in *; congruence.
Qed.

Lemma sort_groups_bare_keys_witness :
  grouped bare_key (sorted_triggers Samples.sample_triggers).
Proof.
  apply (sort_groups_bare_keys Samples.sample_triggers).
  intros t [<-|[<-|[<-|[<-|[<-|[]]]]]]; reflexivity.
Defined.

(** C5, as the specification states it, fails: with the triggers [c+a],
    [a zzz d] and [e+a] the listing is [c+a], [a zzz d], [e+a], and the
    trigger of key [a zzz d] stands between the two triggers of key [a]. *)
Lemma sort_splits_a_key_block :
  sorted_triggers Samples.split_triggers = ["c+a"; "a zzz d"; "e+a"]
  ∧ ¬ grouped bare_key (sorted_triggers Samples.split_triggers).
Proof.
  split; [reflexivity|].
  intros Hg.
  specialize (Hg 0 1 2 "c+a" "a zzz d" "e+a").
  assert (Hk : bare_key "a zzz d" = bare_key "c+a").
  { apply Hg; try reflexivity; lia. }
  vm_compute in Hk. discriminate.
Qed.

End GroupingFacts.

(** ** The rows of the binding listing *)

Module RowFacts.
Import Str Args Style Re Table Diff Samples.
Local Open Scope nat_scope.
Local Open Scope string_scope.

(** [print_mapping_changes] never reads the default map it is handed. *)
Lemma print_mapping_changes_ignores_idefns `{Styling} (cmdArgs : CmdArgs) (what : Part)
    (defns idefns idefns' : gmap string string) (added removed changed : gset string)
    (text : string) (print : Print) :
  print_mapping_changes cmdArgs what defns idefns added removed changed text print
  = print_mapping_changes cmdArgs what defns idefns' added removed changed text print.
Proof. reflexivity. Qed.

Lemma formatAction_no_links (cmdArgs : CmdArgs) (n : nat) (d : string) (g : Globals) :
  links cmdArgs = false →
  formatAction cmdArgs n d g
  = Ok (d ++ spaces (n - len d), mkGlobals (S (link_id g)) (action2key g) (out g)).
Proof.
  intros Hl. unfold formatAction.
  pose proof (ReFacts.actionSplit_app d) as Hd.
  destruct (actionSplit d) as [action args]. simpl in Hd.
  unfold bind, linkAction, link, ret. rewrite Hl.
  rewrite <- StrFacts.app_assoc, Hd. reflexivity.
Qed.

(** Whatever the two maps are, with links disabled the row of a changed
    trigger carries the current action twice: in the action column and,
    in parentheses, in the trailing column. *)
Lemma changed_row_no_links (cmdArgs : CmdArgs) (ef ei : gmap string string)
    (k d : string) (g : Globals) :
  links cmdArgs = false →
  k ∈ changed_of ef ei →
  ef !! k = Some d →
  value_of (mapping_row cmdArgs (merged ef ei)
              (added_of ef ei) (removed_of ef ei) (changed_of ef ei) k) g
  = Some (Some [Grouping.mod_prefix k; Grouping.bare_key k; "  C  "; d;
                "  " ++ String TAB "(" ++ d ++ ")"]).
Proof.
  intros Hl Hc Hd.
  pose proof Hc as Hc'. apply DiffFacts.elem_of_changed_of in Hc' as [Hdom _].
  apply elem_of_intersection in Hdom as [Hf Hi].
  assert (Ha : k ∉ added_of ef ei)
    by (unfold added_of; rewrite elem_of_difference; tauto).
  assert (Hr : k ∉ removed_of ef ei)
    by (unfold removed_of; rewrite elem_of_difference; tauto).
  assert (Hm : merged ef ei !! k = Some d)
    by (unfold merged; apply lookup_union_Some_l; exact Hd).
  unfold value_of, mapping_row.
  rewrite (bool_decide_eq_true_2 _ Hc), (bool_decide_eq_false_2 _ Ha),
    (bool_decide_eq_false_2 _ Hr).
  rewrite andb_false_r. simpl negb. cbv iota. simpl orb. cbv iota.
  unfold bind, getitem. rewrite Hm. unfold ret at 1.
  rewrite (formatAction_no_links _ _ _ _ Hl).
  unfold ret at 1. rewrite (formatAction_no_links _ _ _ _ Hl).
  unfold ret at 1 2. unfold a2k_append. simpl andb. cbv iota.
  unfold Grouping.mod_prefix, Grouping.bare_key.
  destruct (shortcutSplit k) as [mods key]. simpl.
  now rewrite StrFacts.app_nil_r.
Qed.

(** C1, at the input on which the code departs from it. The default map
    binds [ctrl+a] to [next_tab], the current map to [previous_tab]; the
    trigger is classified as changed only, and the one row built for it has
    the glyph [C] and the current action in its action column, but its
    trailing column repeats the current action, [previous_tab], where the
    previous one, [next_tab], should stand. *)
Theorem changed_row_repeats_current_action :
  let ef := repr_map repr_id current_bindings 0 in
  let ei := repr_map repr_id default_bindings 0 in
  ei !! "ctrl+a" = Some "next_tab"
  ∧ ef !! "ctrl+a" = Some "previous_tab"
  ∧ ("ctrl+a" ∈ changed_of ef ei)
  ∧ ("ctrl+a" ∉ added_of ef ei)
  ∧ ("ctrl+a" ∉ removed_of ef ei)
  ∧ value_of (mapping_rows args_no_links (merged ef ei)
                (added_of ef ei) (removed_of ef ei) (changed_of ef ei)
                (sorted_triggers (map fst (map_to_list (merged ef ei))))) fresh
    = Some [["ctrl+"; "a"; "  C  "; "previous_tab";
             "  " ++ String TAB "(previous_tab)"]].
Proof.
  intros ef ei.
  split; [reflexivity|]. split; [reflexivity|].
  split; [apply (bool_decide_unpack _); vm_compute; exact I|].
  split; [apply (bool_decide_unpack _); vm_compute; exact I|].
  split; [apply (bool_decide_unpack _); vm_compute; exact I|].
  vm_compute. reflexivity.
Qed.

End RowFacts.

(** ** Plain mode *)

Module PlainFacts.
Import Str Args Style Re Report Plain StrFacts Samples Sgr.

Lemma has_strip_from (c : ascii) (s : string) (skip : bool) :
  has c (strip_from skip s) = true → has c s = true.
Proof.
  revert skip. induction s as [|x s IH]; intros skip; simpl; [congruence|].
  destruct skip.
  - destruct (ceq x "m"); intros Hs; apply IH in Hs; rewrite Hs;
      destruct (ceq c x); reflexivity.
  - destruct (ceq x ESC && has "m" s).
    + intros Hs. apply IH in Hs. rewrite Hs. destruct (ceq c x); reflexivity.
    + simpl. destruct (ceq c x); [reflexivity | apply IH].
Qed.

(** what [re.sub] leaves holds no escape character that an [m] follows *)
Lemma strip_from_no_sgr (s : string) (skip : bool) (a b : string) :
  strip_from skip s = a ++ String ESC b → has "m" b = false.
Proof.
  revert skip a. induction s as [|x s IH]; intros skip a; simpl.
  - destruct a; discriminate.
  - destruct skip.
    + destruct (ceq x "m"); apply IH.
    + destruct (ceq x ESC && has "m" s) eqn:E; [apply IH|].
      destruct a as [|y a]; simpl.
      * intros [= -> <-]. rewrite ceq_refl in E. simpl in E.
        destruct (has "m" (strip_from false s)) eqn:Eh; [|reflexivity].
        apply has_strip_from in Eh. congruence.
      * intros [= _ Hs]. eapply IH. exact Hs.
Qed.

Section WithHost.
Context `{Styling} {K Em : Type} `{EqDecision K}.
Context (key_repr : list K → Z → string) (mouse_repr : Em → Z → string).

(** C6, as the code has it. With plain mode enabled, the text
    [debug_config] returns is the assembled report with every span from an
    escape character to the next [m] removed: no escape character that an
    [m] follows is left in it. An escape character that no [m] follows
    stays. *)
Theorem plain_report_has_no_sgr (cmdArgs : CmdArgs) (sys : Sys)
    (opts : Opts.KittyOpts K Em) (g : Globals) (s : string) :
  plain cmdArgs = true →
  value_of (debug_config key_repr mouse_repr cmdArgs sys opts) g = Some s →
  (∃ text, value_of (assemble key_repr mouse_repr cmdArgs sys opts) g = Some text
           ∧ s = strip_sgr text)
  ∧ no_sgr_left s.
Proof.
  intros Hp Hs. unfold value_of, debug_config, bind in *.
  destruct (assemble key_repr mouse_repr cmdArgs sys opts g) as [[text g1]|e];
    [|discriminate].
  rewrite Hp in Hs. simpl in Hs. injection Hs as <-.
  split; [exists text; split; reflexivity|].
  intros a b. apply strip_from_no_sgr.
Qed.

End WithHost.

Lemma plain_report_has_no_sgr_witness : no_sgr_left report_env_sgr.
Proof.
  refine (proj2 (plain_report_has_no_sgr keys_repr repr_id
                   (parseArgs init env_plain) sys_env_sgr sample_opts fresh
                   report_env_sgr _ _)).
  - reflexivity.
  - vm_compute. reflexivity.
Defined.

(** C6, as the specification states it, fails: [--env --plain] on a host
    whose environment holds an escape character that no [m] follows returns
    a report in which that escape character is still there. *)
Lemma plain_report_keeps_escape :
  plain (parseArgs init env_plain) = true
  ∧ value_of (run keys_repr repr_id init env_plain sys_env_esc sample_opts) fresh
    = Some report_env_esc
  ∧ ¬ esc_free report_env_esc.
Proof.
  split; [reflexivity|]. split; [vm_compute; reflexivity|].
  unfold esc_free. vm_compute. discriminate.
Qed.

End PlainFacts.

(** ** Probes and banners *)

Module ProbeFacts.
Import Str Args Style Re Issue Report Samples Sgr.

(** C9, as the code has it. When every probe that fails does so with the
    exception its handler names (any [Exception] for the host name,
    [OSError] for the terminal name and for the terminal attributes,
    [RuntimeError] for the user count), [IssueData] is built, with
    ['localhost'] for a failed host name lookup, ['(none)'] for a failed
    terminal name, a baud rate of 0 when standard input is no terminal or
    its attributes cannot be read, and -1 for a failed user count. A banner
    file that does not exist is skipped: nothing is written and nothing is
    raised. *)
Theorem probe_failures_absorbed (pr : Probes) :
  (∀ e, gethostname pr = Raise e → is_Exception e = true) →
  (∀ e, ctermid pr = Raise e → is_OSError e = true) →
  (∀ e, stdin_isatty pr = true → tcgetattr_speed pr = Raise e → is_OSError e = true) →
  (∀ e, num_users pr = Raise e → is_RuntimeError e = true) →
  (∃ d, IssueData_init pr = Ok d
        ∧ hostname d = match gethostname pr with
                       | Ok h => h
                       | Raise _ => "localhost"
                       end
        ∧ tty_name d = match ctermid pr with
                       | Ok raw => format_tty_name raw
                       | Raise _ => "(none)"
                       end
        ∧ baud_rate d = (if stdin_isatty pr
                         then match tcgetattr_speed pr with
                              | Ok b => b
                              | Raise _ => 0%Z
                              end
                         else 0%Z)
        ∧ i_num_users d = match num_users pr with
                          | Ok n => n
                          | Raise _ => (-1)%Z
                          end)
  ∧ (∀ sys p g, issue_exists sys = false → issue_banner sys p g = Ok (tt, g))
  ∧ (∀ sys p g, lsb_exists sys = false → lsb_banner sys p g = Ok (tt, g)).
Proof.
  intros Hh Ht Hb Hu. split; [|split].
  - unfold IssueData_init.
    destruct (gethostname pr) as [h|e1] eqn:E1;
      [|rewrite (Hh e1 eq_refl)];
      (destruct (ctermid pr) as [raw|e2] eqn:E2;
        [|rewrite (Ht e2 eq_refl)]);
      (destruct (stdin_isatty pr) eqn:E3;
        [destruct (tcgetattr_speed pr) as [b|e3] eqn:E4;
          [|rewrite (Hb e3 eq_refl eq_refl)]|]);
      (destruct (num_users pr) as [n|e4] eqn:E5;
        [|rewrite (Hu e4 eq_refl)]);
      eexists; (split; [reflexivity|]); simpl; repeat split; reflexivity.
  - intros sys p g Hex. unfold issue_banner. rewrite Hex. reflexivity.
  - intros sys p g Hex. unfold lsb_banner. rewrite Hex. reflexivity.
Qed.

Lemma probe_failures_absorbed_witness :
  ∃ d, IssueData_init probes_failing = Ok d
       ∧ hostname d = "localhost"
       ∧ tty_name d = "(none)"
       ∧ baud_rate d = 0%Z
       ∧ i_num_users d = (-1)%Z.
Proof.
  refine (proj1 (probe_failures_absorbed probes_failing _ _ _ _)).
  - intros e [= <-]. reflexivity.
  - intros e [= <-]. reflexivity.
  - intros e _ [= <-]. reflexivity.
  - intros e [= <-]. reflexivity.
Defined.

(** C9, as the specification states it, fails: a banner file that exists
    and cannot be opened does not lose its banner only, the whole report
    ends with the [OSError]. And a probe that fails with an exception its
    handler does not name gets no fallback: the constructor ends with it. *)
Lemma unreadable_banner_fails_report :
  (issue_exists sys_issue_unreadable = true
   ∧ issue_open sys_issue_unreadable = Raise OSError
   ∧ run keys_repr repr_id init [] sys_issue_unreadable sample_opts fresh
     = Raise OSError)
  ∧ (lsb_exists sys_lsb_unreadable = true
     ∧ lsb_open sys_lsb_unreadable = Raise OSError
     ∧ run keys_repr repr_id init [] sys_lsb_unreadable sample_opts fresh
       = Raise OSError)
  ∧ IssueData_init probes_termios_error = Raise OtherException.
Proof.
  split; [|split]; [| |reflexivity];
    (split; [reflexivity|]; split; [reflexivity|]; vm_compute; reflexivity).
Qed.

End ProbeFacts.

(** * Further properties *)

(** ** Scanners *)

Module ScanFacts.
Import Str Re Plain Grouping Further StrFacts ReFacts.
Local Open Scope string_scope.
Local Open Scope nat_scope.
#[local] Arguments ceq : simpl never.

Lemma strip_from_fixed (s : string) :
  no_sgr_left s → strip_from false s = s.
Proof.
  induction s as [|c s IH]; intros Hs; simpl; [reflexivity|].
  destruct (ceq c ESC && has "m" s) eqn:E.
  - apply andb_true_iff in E as [Ec Em]. apply ceq_eq in Ec. subst c.
    rewrite (Hs EmptyString s eq_refl) in Em. discriminate.
  - f_equal. apply IH. intros a b Hab. apply (Hs (String c a) b).
    simpl. now rewrite Hab.
Qed.

Lemma len_strip_from (s : string) (skip : bool) : len (strip_from skip s) ≤ len s.
Proof.
  revert skip. induction s as [|c s IH]; intros skip; simpl; [lia|].
  destruct skip.
  - destruct (ceq c "m"); [specialize (IH false) | specialize (IH true)]; lia.
  - destruct (ceq c ESC && has "m" s); simpl;
      [specialize (IH true) | specialize (IH false)]; lia.
Qed.

(** X1. Stripping in plain mode is idempotent and never lengthens the
    text: what [re.sub] returns has nothing left to strip. *)
Theorem strip_sgr_idempotent (s : string) :
  strip_sgr (strip_sgr s) = strip_sgr s ∧ len (strip_sgr s) ≤ len s.
Proof.
  split; [|apply len_strip_from].
  unfold strip_sgr. apply strip_from_fixed.
  intros a b. apply PlainFacts.strip_from_no_sgr.
Qed.

Lemma has_false_app (c : ascii) (a b : string) :
  has c (a ++ b) = false ↔ has c a = false ∧ has c b = false.
Proof. rewrite has_app. apply orb_false_iff. Qed.

Lemma span_nonslash_app (a rest : string) :
  has "/" a = false →
  (rest = EmptyString ∨ ∃ r, rest = String "/" r) →
  span_nonslash (a ++ rest) = (a, rest).
Proof.
  intros Ha Hrest. induction a as [|c a IH]; simpl in *.
  - destruct Hrest as [->|[r ->]]; reflexivity.
  - destruct (ceq "/" c) eqn:E; [discriminate Ha|].
    unfold ceq in *. rewrite Ascii.eqb_sym in E. rewrite E.
    rewrite (IH Ha). reflexivity.
Qed.

(** X2. [format_tty_name] joins the two components of a terminal device
    path: [/dev/a/b], with [a] and [b] non-empty and free of slashes,
    becomes [ab]. *)
Theorem format_tty_name_joins (a b : string) :
  a ≠ EmptyString → b ≠ EmptyString →
  has "/" a = false → has "/" b = false →
  format_tty_name ("/dev/" ++ a ++ "/" ++ b) = a ++ b.
Proof.
  intros Ha Hb Hsa Hsb. unfold format_tty_name.
  change (strip_prefix "/dev/" ("/dev/" ++ a ++ "/" ++ b)) with (Some (a ++ "/" ++ b)).
  cbv iota beta.
  rewrite (span_nonslash_app a ("/" ++ b) Hsa) by (right; eexists; reflexivity).
  destruct a as [|c a]; [congruence|].
  change ("/" ++ b) with (String "/" b). cbv iota beta.
  rewrite <- (app_nil_r b) at 1.
  rewrite (span_nonslash_app b EmptyString Hsb) by (left; reflexivity).
  destruct b as [|d b]; [congruence|]. reflexivity.
Qed.

Lemma format_tty_name_joins_witness :
  format_tty_name ("/dev/" ++ "pts" ++ "/" ++ "3") = "pts" ++ "3".
Proof.
  apply (format_tty_name_joins "pts" "3"); (discriminate || reflexivity).
Defined.

Lemma dot_star_end_no_lf (r : string) :
  has LF r = false → dot_star_end r = Some EmptyString.
Proof.
  induction r as [|c r IH]; simpl; [reflexivity|].
  unfold ceq. rewrite (Ascii.eqb_sym c LF).
  destruct (Ascii.eqb LF c); [discriminate | exact IH].
Qed.

Lemma action_stem_span (s : string) :
  has LF s = false → action_stem s = fst (span_nonspace s).
Proof.
  induction s as [|c s IH]; simpl; [reflexivity|]. intros Hs.
  destruct (ceq LF c) eqn:El; [discriminate|].
  destruct (ceq c SP).
  - now rewrite (dot_star_end_no_lf s Hs).
  - rewrite (IH Hs). destruct (span_nonspace s). reflexivity.
Qed.

(** X3. For an action text without a line feed that does not start with a
    space, the name under which [print_mapping_changes] and [printActions]
    index the action (the text cut at its first space) is the name
    [actionSplit] returns and [formatAction] links. *)
Theorem action_stem_is_action_name (s : string) :
  has LF s = false → startswith " " s = false →
  action_stem s = fst (actionSplit s).
Proof.
  intros Hlf Hsp. rewrite (action_stem_span s Hlf). unfold actionSplit.
  pose proof (span_nonspace_app s) as Happ.
  destruct (span_nonspace s) as [a b] eqn:E. specialize (Happ a b eq_refl).
  destruct a as [|c a].
  - simpl in Happ. subst b. destruct s as [|x s]; [reflexivity|].
    simpl in E. simpl in Hsp. unfold ceq, SP in *.
    rewrite (Ascii.eqb_sym x " ") in E.
    destruct (Ascii.eqb " " x); [discriminate Hsp|].
    destruct (span_nonspace s); discriminate E.
  - destruct b as [|d r]; simpl.
    + now rewrite app_nil_r in Happ.
    + assert (Hr : has LF r = false).
      { rewrite <- Happ in Hlf. change (String c a ++ String d r)
          with (String c a ++ (chr d ++ r)) in Hlf.
        apply has_false_app in Hlf as [_ Hlf]. apply has_false_app in Hlf. tauto. }
      rewrite Hr. reflexivity.
Qed.

Lemma action_stem_is_action_name_witness :
  action_stem "goto_tab 1 2" = fst (actionSplit "goto_tab 1 2").
Proof.
  apply (action_stem_is_action_name "goto_tab 1 2"); reflexivity.
Defined.

End ScanFacts.

(** ** Triggers and their sort key *)

Module SplitFacts.
Import Str Re Sorting Diff Grouping Further StrFacts ReFacts SortFacts.
Local Open Scope string_scope.
Local Open Scope nat_scope.
#[local] Arguments ceq : simpl never.

Lemma has_cons (c d : ascii) (r : string) :
  has c (String d r) = if ceq c d then true else has c r.
Proof. reflexivity. Qed.

Lemma has_chr_ne (c d : ascii) : ceq d c = false → has c (chr d) = false.
Proof.
  intros H. unfold chr. rewrite has_cons. unfold ceq in *.
  rewrite Ascii.eqb_sym, H. reflexivity.
Qed.

Lemma split_mods_shape (s pending m k : string) :
  split_mods pending s = (m, k) → has SP pending = false →
  has SP m = false ∧ (m = EmptyString ∨ ∃ p, m = p ++ "+").
Proof.
  revert pending m k. induction s as [|c r IH]; intros pending m k; simpl.
  - intros [= <- <-] _. split; [reflexivity | left; reflexivity].
  - destruct (ceq c PLUS) eqn:Ep.
    + destruct pending as [|x p].
      * intros [= <- <-] _. split; [reflexivity | left; reflexivity].
      * destruct (split_mods EmptyString r) as [m' k'] eqn:Er.
        intros [= <- <-] Hp.
        destruct (IH EmptyString m' k' Er eq_refl) as [Hm' Hend].
        split.
        -- change (has SP (String x p ++ String PLUS m') = false).
           rewrite has_app, Hp. rewrite has_cons, Hm'. reflexivity.
        -- right. destruct Hend as [->|[q ->]].
           ++ exists (String x p). reflexivity.
           ++ exists (String x p ++ String PLUS q).
              rewrite app_assoc. reflexivity.
    + destruct (ceq c SP) eqn:Es.
      * intros [= <- <-] _. split; [reflexivity | left; reflexivity].
      * intros Hs Hp. apply (IH _ _ _ Hs).
        rewrite has_app, Hp. apply has_chr_ne. exact Es.
Qed.

Lemma mod_prefix_facts (t : string) :
  has SP (mod_prefix t) = false
  ∧ (mod_prefix t = EmptyString ∨ ∃ p, mod_prefix t = p ++ "+")
  ∧ (has PLUS t = false → mod_prefix t = EmptyString ∧ bare_key t = t).
Proof.
  unfold mod_prefix, bare_key, shortcutSplit.
  destruct (split_mods EmptyString t) as [m k] eqn:E.
  destruct (split_mods_shape _ _ _ _ E eq_refl) as [Hsp Hend].
  pose proof (split_mods_app _ _ _ _ E) as Happ. simpl in Happ.
  destruct (has LF k); simpl.
  - split; [reflexivity|]. split; [left; reflexivity|]. intros _. split; reflexivity.
  - split; [exact Hsp|]. split; [exact Hend|].
    intros Hplus. destruct Hend as [->|[p ->]].
    + split; [reflexivity | exact Happ].
    + rewrite <- Happ in Hplus. rewrite !has_app in Hplus.
      rewrite orb_false_iff in Hplus. destruct Hplus as [Hplus _].
      rewrite orb_false_iff in Hplus. destruct Hplus as [_ Hplus].
      discriminate Hplus.
Qed.

(** X4. The modifier prefix [shortcutSplit] returns never holds a space,
    and it is empty or ends in a plus sign; a trigger without a plus sign
    has an empty prefix and is its own bare key. *)
Theorem mod_prefix_shape (t : string) :
  has SP (mod_prefix t) = false
  ∧ (mod_prefix t = EmptyString ∨ ∃ p, mod_prefix t = p ++ "+")
  ∧ (has PLUS t = false → mod_prefix t = EmptyString ∧ bare_key t = t).
Proof. apply mod_prefix_facts. Qed.

Lemma mod_prefix_shape_witness :
  mod_prefix "escape" = EmptyString ∧ bare_key "escape" = "escape".
Proof.
  apply (proj2 (proj2 (mod_prefix_shape "escape"))). reflexivity.
Defined.

Lemma tail_seg_app (x m : string) :
  has SP m = false → tail_seg (x ++ String SP m) = m.
Proof.
  intros Hm. induction x as [|c x IH]; simpl.
  - rewrite Hm. reflexivity.
  - rewrite has_app, has_cons. replace (ceq SP SP) with true by reflexivity.
    rewrite orb_true_r. exact IH.
Qed.

Lemma app_inv_tail (a a' t : string) : a ++ t = a' ++ t → a = a'.
Proof.
  revert a'. induction a as [|c a IH]; intros [|c' a'] Ht; simpl in Ht.
  - reflexivity.
  - exfalso. apply (f_equal len) in Ht. simpl in Ht. rewrite len_app in Ht. lia.
  - exfalso. apply (f_equal len) in Ht. simpl in Ht. rewrite len_app in Ht. lia.
  - injection Ht as -> Ht. f_equal. apply IH. exact Ht.
Qed.

Lemma shortcutSortKey_inj (s t : string) :
  shortcutSortKey s = shortcutSortKey t → s = t.
Proof.
  intros Hst. rewrite !GroupingFacts.shortcutSortKey_parts in Hst.
  destruct (mod_prefix_facts s) as [Hs _]. destruct (mod_prefix_facts t) as [Ht _].
  assert (Hm : mod_prefix s = mod_prefix t).
  { apply (f_equal tail_seg) in Hst.
    change (bare_key s ++ " zzz " ++ mod_prefix s)
      with (bare_key s ++ " zzz" ++ String SP (mod_prefix s)) in Hst.
    change (bare_key t ++ " zzz " ++ mod_prefix t)
      with (bare_key t ++ " zzz" ++ String SP (mod_prefix t)) in Hst.
    rewrite <- !app_assoc in Hst.
    now rewrite (tail_seg_app _ _ Hs), (tail_seg_app _ _ Ht) in Hst. }
  rewrite Hm in Hst. apply app_inv_tail in Hst.
  rewrite <- (shortcutSplit_app s), <- (shortcutSplit_app t).
  unfold mod_prefix, bare_key in *. now rewrite Hm, Hst.
Qed.

(** X5. [shortcutSortKey] is injective: two different triggers never have
    one sort key, so the listing order never falls back on comparing the
    triggers themselves. *)
Theorem shortcutSortKey_injective (s t : string) :
  s ≠ t → shortcutSortKey s ≠ shortcutSortKey t.
Proof. intros Hne Heq. apply Hne. apply shortcutSortKey_inj. exact Heq. Qed.

Lemma shortcutSortKey_injective_witness :
  shortcutSortKey "ctrl+a" ≠ shortcutSortKey "a zzz ctrl+".
Proof.
  apply (shortcutSortKey_injective "ctrl+a" "a zzz ctrl+"). discriminate.
Defined.

(** X6. The order in which [print_mapping_changes] goes through the
    triggers is a rearrangement of them, each trigger once, in ascending
    order of sort key. *)
Theorem sorted_triggers_sorted (ts : list string) :
  Permutation ts (sorted_triggers ts)
  ∧ ∀ i j x y, i < j →
      sorted_triggers ts !! i = Some x → sorted_triggers ts !! j = Some y →
      cmp (shortcutSortKey x) (shortcutSortKey y) ≠ Gt.
Proof.
  split.
  - unfold sorted_triggers.
    rewrite <- (sorted_perm pair_leb (map (fun s => (shortcutSortKey s, s)) ts)).
    rewrite map_map. simpl. rewrite map_id. reflexivity.
  - intros i j x y Hij Hi Hj.
    apply GroupingFacts.sorted_triggers_lookup in Hi as [_ Hi].
    apply GroupingFacts.sorted_triggers_lookup in Hj as [_ Hj].
    pose proof (sorted_sorted pair_leb pair_leb_total pair_leb_trans
                  (map (fun s => (shortcutSortKey s, s)) ts)) as Hs.
    pose proof (StronglySorted_lookup _ _ i j _ _ Hs Hij Hi Hj) as Hxy.
    apply pair_leb_fst in Hxy. exact Hxy.
Qed.

End SplitFacts.

(** ** Part switches on the command line *)

Module SwitchFacts.
Import Args Further ArgsFacts.

Lemma fold_parts_only (sws : list (Switch * bool)) (a : CmdArgs) (q : Part) :
  parts_only sws →
  getattr (fold_left apply_switch sws a) q
  = match last_set sws q with
    | Some b => Some b
    | None => getattr a q
    end.
Proof.
  intros Hp. revert a. induction Hp as [|[s b] r [p Hs] _ IH]; intros a.
  - reflexivity.
  - simpl in Hs. subst s. simpl. rewrite IH, getattr_setattr.
    destruct (last_set r q); [reflexivity|].
    destruct (decide (p = q)) as [Hpq|Hpq].
    + rewrite (bool_decide_eq_true_2 _ Hpq). reflexivity.
    + rewrite (bool_decide_eq_false_2 _ Hpq). reflexivity.
Qed.

Lemma parts_with_only (b : bool) (sws : list (Switch * bool)) :
  parts_with b sws → parts_only sws.
Proof.
  unfold parts_with, parts_only. intros H. eapply Forall_impl; [exact H|].
  intros sw [p ->]. exists p. reflexivity.
Qed.

Lemma last_set_with (b : bool) (sws : list (Switch * bool)) (q : Part) :
  parts_with b sws → last_set sws q = if mentions sws q then Some b else None.
Proof.
  intros Hp. induction Hp as [|sw r [p ->] _ IH]; [reflexivity|].
  simpl. rewrite IH. destruct (mentions r q).
  - now rewrite orb_true_r.
  - rewrite orb_false_r. destruct (bool_decide (p = q)); reflexivity.
Qed.

Lemma mentions_head (b : bool) (sws : list (Switch * bool)) :
  parts_with b sws → sws ≠ [] → ∃ p, mentions sws p = true.
Proof.
  intros Hp Hne. destruct Hp as [|sw r [p ->] _]; [congruence|].
  exists p. simpl. now rewrite bool_decide_eq_true_2.
Qed.

Lemma getattr_init (q : Part) : getattr init q = None.
Proof. destruct q; reflexivity. Qed.

(** X7. As the help text of [parseArgs] says, using only switches of the
    form [--ARG] selects exactly the parts they name. *)
Theorem only_positive_switches (sws : list (Switch * bool)) (q : Part) :
  parts_with true sws → sws ≠ [] →
  getattr (parseArgs init sws) q = Some (mentions sws q).
Proof.
  intros Hp Hne. unfold parseArgs. rewrite getattr_resolveParts.
  assert (Hf : ∀ x, getattr (fold_left apply_switch sws init) x
                    = if mentions sws x then Some true else None).
  { intros x. rewrite (fold_parts_only _ _ _ (parts_with_only _ _ Hp)).
    rewrite (last_set_with true _ _ Hp), getattr_init.
    destruct (mentions sws x); reflexivity. }
  destruct (mentions_head _ _ Hp Hne) as [p Hm].
  assert (Ht : any_is true (map (getattr (fold_left apply_switch sws init)) parts) = true).
  { apply any_is_spec. exists p. now rewrite Hf, Hm. }
  rewrite Ht, Hf. destruct (mentions sws q); reflexivity.
Qed.

Lemma only_positive_switches_witness :
  getattr (parseArgs init [(SwPart colors, true); (SwPart keys, true)]) keys
    = Some true
  ∧ getattr (parseArgs init [(SwPart colors, true); (SwPart keys, true)]) env
    = Some false.
Proof.
  split.
  - apply (only_positive_switches [(SwPart colors, true); (SwPart keys, true)] keys);
      [repeat constructor; eexists; reflexivity | discriminate].
  - apply (only_positive_switches [(SwPart colors, true); (SwPart keys, true)] env);
      [repeat constructor; eexists; reflexivity | discriminate].
Defined.

(** X8. As the help text of [parseArgs] says, using only switches of the
    form [--no-ARG] selects every part but the ones they name. *)
Theorem only_negative_switches (sws : list (Switch * bool)) (q : Part) :
  parts_with false sws → sws ≠ [] →
  getattr (parseArgs init sws) q = Some (negb (mentions sws q)).
Proof.
  intros Hp Hne. unfold parseArgs. rewrite getattr_resolveParts.
  assert (Hf : ∀ x, getattr (fold_left apply_switch sws init) x
                    = if mentions sws x then Some false else None).
  { intros x. rewrite (fold_parts_only _ _ _ (parts_with_only _ _ Hp)).
    rewrite (last_set_with false _ _ Hp), getattr_init.
    destruct (mentions sws x); reflexivity. }
  destruct (mentions_head _ _ Hp Hne) as [p Hm].
  assert (Ht : any_is true (map (getattr (fold_left apply_switch sws init)) parts) = false).
  { destruct (any_is true _) eqn:E; [|reflexivity].
    apply any_is_spec in E as [x Hx]. rewrite Hf in Hx.
    destruct (mentions sws x); discriminate Hx. }
  assert (Hfa : any_is false (map (getattr (fold_left apply_switch sws init)) parts) = true).
  { apply any_is_spec. exists p. now rewrite Hf, Hm. }
  rewrite Ht, Hfa, Hf. destruct (mentions sws q); reflexivity.
Qed.

Lemma only_negative_switches_witness :
  getattr (parseArgs init [(SwPart colors, false)]) colors = Some false
  ∧ getattr (parseArgs init [(SwPart colors, false)]) info = Some true.
Proof.
  split.
  - apply (only_negative_switches [(SwPart colors, false)] colors);
      [repeat constructor; eexists; reflexivity | discriminate].
  - apply (only_negative_switches [(SwPart colors, false)] info);
      [repeat constructor; eexists; reflexivity | discriminate].
Defined.

(** X9. As the help text of [parseArgs] says, [--all] and [--no-all] set
    every part, and the part switches after them refine that: a part has
    the value of the last switch naming it, or else the value given to
    [all]. *)
Theorem all_then_refine (v : bool) (sws : list (Switch * bool)) (q : Part) :
  parts_only sws →
  getattr (parseArgs init ((SwAll, v) :: sws)) q = Some (default v (last_set sws q)).
Proof.
  intros Hp. unfold parseArgs. simpl fold_left.
  assert (Hf : ∀ x, getattr (fold_left apply_switch sws (set_all_parts init (Some v))) x
                    = Some (default v (last_set sws x))).
  { intros x. rewrite (fold_parts_only _ _ _ Hp), getattr_set_all_parts.
    destruct (last_set sws x); reflexivity. }
  rewrite getattr_resolveParts, Hf.
  destruct (any_is true _) eqn:Et; [reflexivity|].
  destruct (any_is false _) eqn:Ef; [reflexivity|].
  destruct (default v (last_set sws q)) eqn:Ed; [reflexivity|].
  assert (Hc : any_is false (map (getattr (fold_left apply_switch sws
                                             (set_all_parts init (Some v)))) parts) = true).
  { apply any_is_spec. exists q. now rewrite Hf, Ed. }
  congruence.
Qed.

Lemma all_then_refine_witness :
  getattr (parseArgs init [(SwAll, false); (SwPart env, true); (SwPart env, false);
                           (SwPart keys, true)]) keys = Some true.
Proof.
  apply (all_then_refine false
           [(SwPart env, true); (SwPart env, false); (SwPart keys, true)] keys).
  repeat constructor; eexists; reflexivity.
Defined.

End SwitchFacts.

(** ** Rows of the binding listing, case by case *)

Module RowCases.
Import Str Args Style Re Table Diff Grouping Further StrFacts DiffFacts RowFacts.
Local Open Scope string_scope.

Lemma formatAction_state (cmdArgs : CmdArgs) (n : nat) (s : string) (g : Globals) :
  ∃ x, formatAction cmdArgs n s g
       = Ok (x, mkGlobals (S (link_id g)) (action2key g) (out g)).
Proof.
  unfold formatAction. destruct (actionSplit s) as [action args].
  unfold bind, linkAction, link, ret. eexists. reflexivity.
Qed.

Lemma not_elem_of_changed_same (m : gmap string string) (k : string) :
  k ∉ changed_of m m.
Proof. intros H. apply elem_of_changed_of in H as [_ H]. now apply H. Qed.

Lemma mapping_row_skipped (cmdArgs : CmdArgs) (defns : gmap string string)
    (added removed changed : gset string) (k : string) (g : Globals) :
  diff cmdArgs = true → k ∉ added → k ∉ removed → k ∉ changed →
  mapping_row cmdArgs defns added removed changed k g = Ok (None, g).
Proof.
  intros Hd Ha Hr Hc. unfold mapping_row.
  rewrite (bool_decide_eq_false_2 _ Ha), (bool_decide_eq_false_2 _ Hr),
    (bool_decide_eq_false_2 _ Hc), Hd.
  reflexivity.
Qed.

(** X10. In diff mode a binding map compared with itself gives no row at
    all, and going through its triggers leaves the link counter, the
    output and [action2key] as they were: no binding is indexed for the
    actions report. *)
Theorem diff_of_equal_maps_is_empty (cmdArgs : CmdArgs) (m : gmap string string)
    (ks : list string) (g : Globals) :
  diff cmdArgs = true →
  mapping_rows cmdArgs (merged m m) (added_of m m) (removed_of m m) (changed_of m m)
    ks g = Ok ([], g).
Proof.
  intros Hd. revert g. induction ks as [|k ks IH]; intros g; [reflexivity|].
  simpl. unfold bind.
  rewrite (mapping_row_skipped cmdArgs (merged m m) _ _ _ k g Hd).
  - rewrite IH. reflexivity.
  - unfold added_of. rewrite elem_of_difference. tauto.
  - unfold removed_of. rewrite elem_of_difference. tauto.
  - apply not_elem_of_changed_same.
Qed.

Lemma diff_of_equal_maps_is_empty_witness :
  mapping_rows Samples.sample_args
    (merged {["ctrl+a" := "next_tab"]} {["ctrl+a" := "next_tab"]})
    (added_of {["ctrl+a" := "next_tab"]} {["ctrl+a" := "next_tab"]})
    (removed_of {["ctrl+a" := "next_tab"]} {["ctrl+a" := "next_tab"]})
    (changed_of {["ctrl+a" := "next_tab"]} {["ctrl+a" := "next_tab"]})
    ["ctrl+a"] fresh
  = Ok ([], fresh).
Proof.
  apply (diff_of_equal_maps_is_empty Samples.sample_args
           {["ctrl+a" := "next_tab"]} ["ctrl+a"] fresh).
  reflexivity.
Defined.

(** X11. With links disabled, a trigger that only the default map binds
    gets, when deleted bindings are shown, a row with the glyph [-], a
    blank action column and the default action in parentheses; with
    [--no-deleted] it gets no row. Either way the link counter advances by
    one and [action2key] is left alone. *)
Theorem removed_row_no_links (cmdArgs : CmdArgs) (ef ei : gmap string string)
    (k d : string) (g : Globals) :
  links cmdArgs = false →
  k ∈ removed_of ef ei →
  ei !! k = Some d →
  mapping_row cmdArgs (merged ef ei)
    (added_of ef ei) (removed_of ef ei) (changed_of ef ei) k g
  = Ok (if deleted cmdArgs
        then Some [mod_prefix k; bare_key k; "  -  "; "     ";
                   "  " ++ String TAB "(" ++ d ++ ")"]
        else None,
        mkGlobals (S (link_id g)) (action2key g) (out g)).
Proof.
  intros Hl Hr Hd.
  pose proof Hr as Hr'. unfold removed_of in Hr'.
  apply elem_of_difference in Hr' as [Hi Hf].
  assert (Ha : k ∉ added_of ef ei)
    by (unfold added_of; rewrite elem_of_difference; tauto).
  assert (Hc : k ∉ changed_of ef ei).
  { intros Hc. apply elem_of_changed_of in Hc as [Hc _].
    apply elem_of_intersection in Hc. tauto. }
  assert (Hm : merged ef ei !! k = Some d).
  { unfold merged. rewrite lookup_union_r; [exact Hd|].
    apply not_elem_of_dom. exact Hf. }
  unfold mapping_row.
  rewrite (bool_decide_eq_true_2 _ Hr), (bool_decide_eq_false_2 _ Ha),
    (bool_decide_eq_false_2 _ Hc).
  rewrite !andb_false_r. simpl negb. simpl orb. cbv iota.
  unfold bind, getitem. rewrite Hm. unfold ret at 1 2.
  rewrite (formatAction_no_links _ _ _ _ Hl).
  unfold ret at 1 2. simpl andb.
  destruct (deleted cmdArgs); simpl.
  - unfold mod_prefix, bare_key. destruct (shortcutSplit k) as [mods key].
    simpl. now rewrite app_nil_r.
  - reflexivity.
Qed.

Lemma removed_row_no_links_witness :
  mapping_row Samples.args_no_links (merged ∅ {["ctrl+b" := "close_tab"]})
    (added_of ∅ {["ctrl+b" := "close_tab"]})
    (removed_of ∅ {["ctrl+b" := "close_tab"]})
    (changed_of ∅ {["ctrl+b" := "close_tab"]}) "ctrl+b" fresh
  = Ok (Some [mod_prefix "ctrl+b"; bare_key "ctrl+b"; "  -  "; "     ";
              "  " ++ String TAB "(" ++ "close_tab" ++ ")"],
        mkGlobals 2 ∅ EmptyString).
Proof.
  apply (removed_row_no_links Samples.args_no_links ∅ {["ctrl+b" := "close_tab"]}
           "ctrl+b" "close_tab" fresh).
  - reflexivity.
  - apply (bool_decide_unpack _). vm_compute. exact I.
  - reflexivity.
Defined.

(** X12. With links disabled, a trigger that only the current map binds
    gets a row with the glyph [A], its action and an empty trailing
    column; the binding is appended to what [action2key] lists under the
    stem of the action, and the link counter advances by one. *)
Theorem added_row_no_links (cmdArgs : CmdArgs) (ef ei : gmap string string)
    (k d : string) (g : Globals) :
  links cmdArgs = false →
  k ∈ added_of ef ei →
  ef !! k = Some d →
  mapping_row cmdArgs (merged ef ei)
    (added_of ef ei) (removed_of ef ei) (changed_of ef ei) k g
  = Ok (Some [mod_prefix k; bare_key k; "  A  "; d; EmptyString],
        mkGlobals (S (link_id g))
          (<[action_stem d :=
               (default [] (action2key g !! action_stem d) ++ [(k, d)])%list]>
             (action2key g))
          (out g)).
Proof.
  intros Hl Ha Hd.
  pose proof Ha as Ha'. unfold added_of in Ha'.
  apply elem_of_difference in Ha' as [Hf Hi].
  assert (Hr : k ∉ removed_of ef ei)
    by (unfold removed_of; rewrite elem_of_difference; tauto).
  assert (Hm : merged ef ei !! k = Some d)
    by (unfold merged; apply lookup_union_Some_l; exact Hd).
  unfold mapping_row.
  rewrite (bool_decide_eq_true_2 _ Ha), (bool_decide_eq_false_2 _ Hr).
  rewrite !andb_false_r. simpl negb. cbv iota.
  destruct (bool_decide (k ∈ changed_of ef ei)) eqn:Ec.
  - exfalso. apply bool_decide_eq_true_1 in Ec.
    apply elem_of_changed_of in Ec as [Ec _].
    apply elem_of_intersection in Ec. tauto.
  - simpl orb. cbv iota.
    unfold bind, getitem. rewrite Hm. unfold ret at 1.
    rewrite (formatAction_no_links _ _ _ _ Hl).
    unfold ret at 1. unfold a2k_append. simpl andb. cbv iota.
    unfold mod_prefix, bare_key. destruct (shortcutSplit k) as [mods key].
    simpl. now rewrite app_nil_r.
Qed.

Lemma added_row_no_links_witness :
  mapping_row Samples.args_no_links (merged {["ctrl+n" := "new_tab"]} ∅)
    (added_of {["ctrl+n" := "new_tab"]} ∅)
    (removed_of {["ctrl+n" := "new_tab"]} ∅)
    (changed_of {["ctrl+n" := "new_tab"]} ∅) "ctrl+n" fresh
  = Ok (Some [mod_prefix "ctrl+n"; bare_key "ctrl+n"; "  A  "; "new_tab"; EmptyString],
        mkGlobals 2
          (<[action_stem "new_tab" :=
               (default [] (action2key fresh !! action_stem "new_tab")
                ++ [("ctrl+n", "new_tab")])%list]> (action2key fresh))
          EmptyString).
Proof.
  apply (added_row_no_links Samples.args_no_links {["ctrl+n" := "new_tab"]} ∅
           "ctrl+n" "new_tab" fresh).
  - reflexivity.
  - apply (bool_decide_unpack _). vm_compute. exact I.
  - reflexivity.
Defined.

End RowCases.

(** ** The reverse index and the representation maps *)

Module IndexFacts.
Import Str Args Style Re Table Diff Further StrFacts DiffFacts RowCases.
Local Open Scope string_scope.

Lemma a2k_sound_append (g : Globals) (k d : string) (n : nat) (o : string) :
  a2k_sound g →
  a2k_sound (mkGlobals n
               (<[action_stem d :=
                    (default [] (action2key g !! action_stem d) ++ [(k, d)])%list]>
                  (action2key g)) o).
Proof.
  intros Hg a l k' d' Hl Hin. simpl in Hl.
  destruct (decide (action_stem d = a)) as [<-|Hne].
  - rewrite lookup_insert_eq in Hl. injection Hl as <-.
    apply in_app_or in Hin as [Hin|[[= <- <-]|[]]]; [|reflexivity].
    destruct (action2key g !! action_stem d) as [l0|] eqn:E; [|destruct Hin].
    exact (Hg _ _ _ _ E Hin).
  - rewrite lookup_insert_ne in Hl by exact Hne. exact (Hg _ _ _ _ Hl Hin).
Qed.

Lemma a2k_sound_same (g : Globals) (n : nat) (o : string) :
  a2k_sound g → a2k_sound (mkGlobals n (action2key g) o).
Proof. intros Hg a l k d Hl Hin. exact (Hg a l k d Hl Hin). Qed.

Ltac row_steps :=
  repeat match goal with
         | |- context [formatAction ?c ?n ?s ?g0] =>
             let x := fresh "x" in
             destruct (formatAction_state c n s g0) as [x ->]; cbv beta iota
         | |- context [shortcutSplit ?k] =>
             destruct (shortcutSplit k); cbv beta iota
         end.

Lemma mapping_row_sound (cmdArgs : CmdArgs) (defns : gmap string string)
    (added removed changed : gset string) (k : string) (g g' : Globals)
    (row : option (list string)) :
  a2k_sound g →
  mapping_row cmdArgs defns added removed changed k g = Ok (row, g') →
  a2k_sound g'.
Proof.
  intros Hg. unfold mapping_row.
  destruct (bool_decide (k ∈ removed)), (bool_decide (k ∈ changed)),
    (bool_decide (k ∈ added)), (diff cmdArgs), (deleted cmdArgs);
    cbv beta iota delta [negb andb orb bind ret raise getitem a2k_append];
    destruct (defns !! k) as [d|]; cbv beta iota;
    row_steps;
    intros H; try discriminate H; injection H as _ <-;
    cbn [action2key link_id out];
    first [ exact Hg
          | apply a2k_sound_same; exact Hg
          | apply (a2k_sound_append g); exact Hg ].
Qed.

(** X13. Building the rows of a listing keeps [action2key] sound: each
    binding it lists under a name has an action whose stem is that name,
    which is what [printActions] relies on when it looks an action up. *)
Theorem mapping_rows_keep_index_sound (cmdArgs : CmdArgs) (defns : gmap string string)
    (added removed changed : gset string) (ks : list string) (g g' : Globals)
    (rows : list (list string)) :
  a2k_sound g →
  mapping_rows cmdArgs defns added removed changed ks g = Ok (rows, g') →
  a2k_sound g'.
Proof.
  revert g rows. induction ks as [|k ks IH]; intros g rows Hg; simpl.
  - intros [= _ <-]. exact Hg.
  - unfold bind.
    destruct (mapping_row cmdArgs defns added removed changed k g)
      as [[row g1]|e] eqn:E1; [|intros H; discriminate H].
    destruct (mapping_rows cmdArgs defns added removed changed ks g1)
      as [[rows1 g2]|e] eqn:E2; [|intros H; discriminate H].
    intros [= _ <-].
    apply (IH g1 rows1); [|exact E2].
    eapply mapping_row_sound; [exact Hg | exact E1].
Qed.

Lemma mapping_rows_keep_index_sound_witness :
  a2k_sound
    (mkGlobals 2
       (<[action_stem "new_tab" :=
            (default [] (action2key indexed !! action_stem "new_tab")
             ++ [("ctrl+n", "new_tab")])%list]> (action2key indexed))
       EmptyString).
Proof.
  apply (mapping_rows_keep_index_sound Samples.args_no_links
           (merged {["ctrl+n" := "new_tab"]} ∅)
           (added_of {["ctrl+n" := "new_tab"]} ∅)
           (removed_of {["ctrl+n" := "new_tab"]} ∅)
           (changed_of {["ctrl+n" := "new_tab"]} ∅)
           ["ctrl+n"] indexed _
           [[Grouping.mod_prefix "ctrl+n"; Grouping.bare_key "ctrl+n"; "  A  ";
             "new_tab"; EmptyString]]).
  - intros a l k d Hl Hin. unfold indexed in Hl. simpl in Hl.
    apply lookup_singleton_Some in Hl as [<- <-].
    destruct Hin as [[= <- <-]|[]]. reflexivity.
  - vm_compute. reflexivity.
Defined.

Lemma repr_map_fold_other {E : Type} (hr : E → Z → string) (d : list (E * string))
    (z : Z) (m0 : gmap string string) (k : string) :
  (∀ e v, In (e, v) d → hr e z ≠ k) →
  fold_left (fun m kv => <[hr (fst kv) z := snd kv]> m) d m0 !! k = m0 !! k.
Proof.
  revert m0. induction d as [|[e w] d IH]; intros m0 Hd; [reflexivity|].
  simpl. rewrite IH by (intros e' v' Hin; apply (Hd e' v'); right; exact Hin).
  apply lookup_insert_ne. apply (Hd e w). left. reflexivity.
Qed.

(** X14. Every action in a representation map of [compare_maps] belongs to
    a binding with that representation, and when several bindings share a
    representation the last one in the order of the dictionary is the one
    kept: a representation maps to an action exactly when some binding
    with that representation and that action is followed by no binding
    with the same representation. *)
Theorem repr_map_last_wins {E : Type} (human_repr : E → Z → string)
    (d : list (E * string)) (kitty_mod : Z) (k v : string) :
  repr_map human_repr d kitty_mod !! k = Some v
  ↔ ∃ d1 e d2, d = (d1 ++ (e, v) :: d2)%list
               ∧ human_repr e kitty_mod = k
               ∧ ∀ e' v', In (e', v') d2 → human_repr e' kitty_mod ≠ k.
Proof.
  split.
  - revert v. induction d as [|[e w] d IH] using rev_ind; intros v.
    + unfold repr_map. simpl. rewrite lookup_empty. intros Hk. discriminate Hk.
    + unfold repr_map in *. rewrite fold_left_app. simpl.
      destruct (decide (human_repr e kitty_mod = k)) as [Hk|Hk].
      * rewrite Hk, lookup_insert_eq. intros [= ->].
        exists d, e, []. split; [reflexivity|]. split; [exact Hk|].
        intros e' v' [].
      * rewrite lookup_insert_ne by exact Hk. intros Hv.
        destruct (IH v Hv) as (d1 & e0 & d2 & -> & He0 & Hd2).
        exists d1, e0, (d2 ++ [(e, w)])%list.
        split; [rewrite <- List.app_assoc; reflexivity|]. split; [exact He0|].
        intros e' v' Hin. apply in_app_or in Hin as [Hin|[[= <- <-]|[]]].
        -- exact (Hd2 e' v' Hin).
        -- exact Hk.
  - intros (d1 & e & d2 & -> & He & Hd2). unfold repr_map.
    rewrite fold_left_app. simpl.
    rewrite (repr_map_fold_other human_repr d2 kitty_mod _ k Hd2).
    rewrite He. apply lookup_insert_eq.
Qed.

End IndexFacts.

(** ** Rows and alignment of the table formatter *)

Module LayoutFacts.
Import Str Style Table Further StrFacts TableFacts.
Local Open Scope string_scope.
Local Open Scope nat_scope.

Lemma ljust_pads : pads ljust.
Proof.
  intros n s g Hs. exists (ljust_s n s). split; [reflexivity|].
  unfold ljust_s. rewrite len_app, len_spaces. lia.
Qed.

Lemma rjust_pads : pads rjust.
Proof.
  intros n s g Hs. exists (rjust_s n s). split; [reflexivity|].
  unfold rjust_s. rewrite len_app, len_spaces. lia.
Qed.

Lemma center_pads : pads center.
Proof.
  intros n s g Hs. exists (center_s n s). split; [reflexivity|].
  unfold center_s. rewrite !len_app, !len_spaces.
  set (pad := n - len s).
  set (left := pad / 2 + (if Nat.odd pad && Nat.odd n then 1 else 0)).
  assert (Hleft : left ≤ pad).
  { subst left.
    assert (Hhalf : pad / 2 ≤ pad) by (apply Nat.Div0.div_le_upper_bound; lia).
    destruct (Nat.odd pad) eqn:Eo; cbn [andb].
    - assert (0 < pad) by (destruct pad; [discriminate Eo | lia]).
      assert (pad / 2 < pad) by (apply Nat.div_lt; lia).
      destruct (Nat.odd n); lia.
    - lia. }
  clearbody left. subst pad. lia.
Qed.

Lemma keeps_len_nofmt : keeps_len nofmt.
Proof. intros x. reflexivity. Qed.

Lemma map_m_fst {A B} (f : A → M (A * B)) (l : list A) (g g' : Globals)
    (ys : list (A * B)) :
  (∀ x g0 y g1, f x g0 = Ok (y, g1) → fst y = x) →
  map_m f l g = Ok (ys, g') → map fst ys = l.
Proof.
  intros Hf. revert g g' ys. induction l as [|x l IH]; intros g g' ys; simpl.
  - intros [= <- _]. reflexivity.
  - unfold bind. destruct (f x g) as [[y g1]|e] eqn:E1; [|intros H; discriminate H].
    destruct (map_m f l g1) as [[ys1 g2]|e] eqn:E2; [|intros H; discriminate H].
    intros [= <- _]. simpl. f_equal; [eapply Hf; exact E1 | eapply IH; exact E2].
Qed.

(** X15. When [formatTable] returns, it returns one pair per row of the
    table, in the order of the rows, each holding the row it was built
    from. *)
Theorem formatTable_keeps_rows (a : list (list string)) (fmt : list TabFmt)
    (g g' : Globals) (rows : list (list string * string)) :
  formatTable a fmt g = Ok (rows, g') → map fst rows = a.
Proof.
  unfold formatTable. destruct a as [|r0 a0].
  - intros [= <- _]. reflexivity.
  - apply map_m_fst. intros row g0 y g1. unfold bind.
    destruct (formatCells fmt (field_lens (r0 :: a0)) row g0) as [[cells g2]|e];
      [|intros H; discriminate H].
    intros [= <- _]. reflexivity.
Qed.

Lemma formatTable_keeps_rows_witness :
  map fst [(["a"; "bb"; "ccc"], "  a    bbccc"); (["dddd"; "e"; "ff"], "  dddd  e ff")]
  = square_table.
Proof.
  apply (formatTable_keeps_rows square_table plain_fmt fresh fresh).
  vm_compute. reflexivity.
Defined.

Lemma cells_aligned (row : list string) (fmt : list TabFmt) (widths : list nat)
    (g : Globals) :
  length row = length fmt → length fmt = length widths →
  (∀ j v w, row !! j = Some v → widths !! j = Some w → len v ≤ w) →
  Forall (fun f => pads (justFn f) ∧ keeps_len (fmtFn f)) fmt →
  ∃ cells, formatCells fmt widths row g = Ok (cells, g)
           ∧ len (Str.concat cells) = sum_list (map indent fmt) + sum_list widths.
Proof.
  unfold formatCells.
  revert fmt widths. induction row as [|v row IH]; intros [|f fmt] [|w widths];
    simpl; try discriminate.
  - intros _ _ _ _. exists []. split; reflexivity.
  - intros Hl1 Hl2 Hb Hf. apply Forall_cons in Hf as [[Hp Hk] Hf].
    destruct (Hp w v g (Hb 0 v w eq_refl eq_refl)) as (t & Ht & Hlt).
    destruct (IH fmt widths) as (cells & Hc & Hlc);
      [lia | lia | intros j v' w' H1 H2; exact (Hb (S j) v' w' H1 H2) | exact Hf |].
    exists ((spaces (indent f) ++ fmtFn f t) :: cells). split.
    + unfold bind. rewrite Ht. unfold ret at 1. rewrite Hc. reflexivity.
    + simpl Str.concat. rewrite !len_app, len_spaces, Hk, Hlt, Hlc. lia.
Qed.

(** X16. Rows come out aligned: for a rectangular table with as many
    column formats as columns, when every column pads to the width it is
    given (as [ljust], [rjust] and [center] do) and its style keeps the
    length, [formatTable] returns, leaves the globals alone, and gives
    every row a text of one and the same length, the sum of the indents and
    of the column widths. *)
Theorem formatTable_aligned (n : nat) (a : list (list string)) (fmt : list TabFmt)
    (g : Globals) :
  Forall (fun row => length row = n) a →
  length fmt = n →
  Forall (fun f => pads (justFn f) ∧ keeps_len (fmtFn f)) fmt →
  ∃ rows, formatTable a fmt g = Ok (rows, g)
          ∧ map fst rows = a
          ∧ Forall (fun rt => len (snd rt)
                              = sum_list (map indent fmt) + sum_list (field_lens a)) rows.
Proof.
  intros Hrect Hfmt Hf. unfold formatTable.
  destruct a as [|r0 a0]; [exists []; repeat split; constructor|].
  destruct (field_lens_max n (r0 :: a0)) as [Hlen Hmax]; [discriminate | exact Hrect |].
  set (a := r0 :: a0) in *. set (widths := field_lens a) in *.
  assert (Hall : ∀ l, (∀ row, In row l → In row a) →
    ∃ rows, map_m (fun row => cells <- formatCells fmt widths row ;;
                              ret (row, Str.concat cells)) l g = Ok (rows, g)
            ∧ map fst rows = l
            ∧ Forall (fun rt => len (snd rt)
                                = sum_list (map indent fmt) + sum_list widths) rows).
  { induction l as [|row l IH]; intros Hin.
    - exists []. repeat split; constructor.
    - destruct IH as (rows & Hrows & Hfst & Hlens);
        [intros r Hr; apply Hin; right; exact Hr|].
      assert (Hrow : In row a) by (apply Hin; left; reflexivity).
      destruct (cells_aligned row fmt widths g) as (cells & Hc & Hlc).
      + rewrite Forall_forall in Hrect. rewrite Hfmt. apply Hrect.
        apply list_elem_of_In. exact Hrow.
      + lia.
      + intros j v w Hv Hw. destruct (Hmax j w Hw) as [Hub _].
        exact (Hub row v Hrow Hv).
      + exact Hf.
      + exists ((row, Str.concat cells) :: rows). split; [|split].
        * simpl. unfold bind in Hrows |- *. rewrite Hc. unfold ret at 1.
          rewrite Hrows. reflexivity.
        * simpl. now rewrite Hfst.
        * constructor; [exact Hlc | exact Hlens]. }
  apply Hall. tauto.
Qed.

Lemma formatTable_aligned_witness :
  ∃ rows, formatTable square_table plain_fmt fresh = Ok (rows, fresh)
          ∧ map fst rows = square_table
          ∧ Forall (fun rt => len (snd rt)
                   = sum_list (map indent plain_fmt) + sum_list (field_lens square_table))
                   rows.
Proof.
  apply (formatTable_aligned 3 square_table plain_fmt fresh).
  - repeat constructor.
  - reflexivity.
  - repeat constructor;
      first [apply ljust_pads | apply rjust_pads | apply center_pads
            | apply keeps_len_nofmt].
Defined.

(** X17. Columns beyond the shortest row are dropped: a non-empty table
    gets as many column widths as its shortest row has cells. *)
Theorem field_lens_shortest_row (a : list (list string)) :
  a ≠ [] →
  (∀ row, In row a → length (field_lens a) ≤ length row)
  ∧ (∃ row, In row a ∧ length (field_lens a) = length row).
Proof.
  unfold field_lens. rewrite length_map.
  induction a as [|r rest IH]; [congruence|]. intros _.
  destruct rest as [|r2 rest'].
  - simpl. rewrite length_map. split.
    + intros row [<-|[]]. lia.
    + exists r. split; [left; reflexivity | reflexivity].
  - destruct IH as [Hub (row0 & Hin0 & Hlen0)]; [congruence|].
    change (zip_star (r :: r2 :: rest'))
      with (zip_with cons r (zip_star (r2 :: rest'))).
    rewrite length_zip_with. split.
    + intros row [<-|Hin]; [lia|]. specialize (Hub row Hin). lia.
    + destruct (Nat.min_spec (length r) (length (zip_star (r2 :: rest'))))
        as [[_ ->]|[_ ->]].
      * exists r. split; [left; reflexivity | reflexivity].
      * exists row0. split; [right; exact Hin0 | exact Hlen0].
Qed.

Lemma field_lens_shortest_row_witness :
  ∃ row, In row ragged_table ∧ length (field_lens ragged_table) = length row.
Proof.
  refine (proj2 (field_lens_shortest_row ragged_table _)). discriminate.
Defined.

End LayoutFacts.

(** ** The option differ and the key maps *)

Module OptsFacts.
Import Str Args Style Re Table Sorting Diff Opts Report Further Sgr.
Local Open Scope string_scope.

Lemma filter_none {A} (P : A → bool) (l : list A) :
  (∀ x, P x = false) → filter P l = [].
Proof.
  intros HP. induction l as [|x l IH]; [reflexivity|].
  rewrite filter_cons. rewrite decide_False; [exact IH|].
  rewrite HP. exact id.
Qed.

Section WithHost.
Context `{Styling} {K Em : Type} `{EqDecision K}.
Context (key_repr : list K → Z → string) (mouse_repr : Em → Z → string).

Lemma compare_opts_nothing_changed (cmdArgs : CmdArgs) (opts : KittyOpts K Em)
    (w : string) (g : Globals) :
  what cmdArgs = Some w → diff cmdArgs = true →
  fields opts ≠ [] → Forall (fun x => f_differs x = false) (fields opts) →
  compare_opts key_repr mouse_repr cmdArgs opts (printer cmdArgs) g = Raise ValueError.
Proof.
  intros Hw Hd Hne Hsame. unfold compare_opts. rewrite Hw, Hd.
  rewrite filter_none.
  - destruct (fields opts) as [|x fs]; [congruence|].
    unfold bind, link, ret, raise.
    destruct (truthy (getattr cmdArgs config)); reflexivity.
  - intros f. apply andb_false_intro2.
    rewrite Forall_forall in Hsame.
    apply not_true_is_false. intros Hex. apply existsb_exists in Hex as (x & Hin & Hx).
    apply andb_true_iff in Hx as [_ Hx].
    rewrite (Hsame x) in Hx; [discriminate Hx|].
    apply list_elem_of_In. exact Hin.
Qed.

(** X18. In diff mode, when the options have at least one field and none
    differs from its default, [compare_opts] ends with a [ValueError] (the
    maximum of an empty list of names) instead of listing nothing, and so
    does [debug_config] when the info part is not selected. *)
Theorem diff_without_changes_raises (cmdArgs : CmdArgs) (sys : Sys)
    (opts : KittyOpts K Em) (w : string) (g : Globals) :
  what cmdArgs = Some w → diff cmdArgs = true →
  fields opts ≠ [] → Forall (fun x => f_differs x = false) (fields opts) →
  compare_opts key_repr mouse_repr cmdArgs opts (printer cmdArgs) g = Raise ValueError
  ∧ (truthy (getattr cmdArgs info) = false →
     debug_config key_repr mouse_repr cmdArgs sys opts g = Raise ValueError).
Proof.
  intros Hw Hd Hne Hsame.
  split; [apply (compare_opts_nothing_changed _ _ w); assumption|].
  intros Hi. unfold debug_config, assemble. rewrite Hi.
  unfold bind at 1 2 3 4. unfold ret at 1 2.
  rewrite (compare_opts_nothing_changed _ _ w) by assumption. reflexivity.
Qed.

End WithHost.

Lemma diff_without_changes_raises_witness :
  debug_config Samples.keys_repr Samples.repr_id args_diff_no_info
    Samples.sys_env_esc unchanged_opts fresh = Raise ValueError.
Proof.
  refine (proj2 (diff_without_changes_raises Samples.keys_repr Samples.repr_id
                   args_diff_no_info Samples.sys_env_esc unchanged_opts "DIFF of" fresh
                   _ _ _ _) _).
  - reflexivity.
  - reflexivity.
  - discriminate.
  - repeat constructor.
  - reflexivity.
Defined.

Section WithKey.
Context {K V : Type} `{EqDecision K}.

Lemma set_in (d : list (K * V)) (k : K) (v : V) (k' : K) (v' : V) :
  In (k', v') (Dict.set d k v) → (k', v') = (k, v) ∨ In (k', v') d.
Proof.
  induction d as [|[k0 v0] d IH]; simpl.
  - intros [Heq|[]]. left. now symmetry.
  - destruct (decide (k0 = k)) as [->|Hne]; simpl.
    + intros [Heq|Hin]; [left; now symmetry | right; right; exact Hin].
    + intros [Heq|Hin]; [right; left; exact Heq|].
      destruct (IH Hin) as [Heq|Hin']; [left; exact Heq | right; right; exact Hin'].
Qed.

Lemma set_keys (d : list (K * V)) (k : K) (v : V) (k' : K) :
  In k' (map fst (Dict.set d k v)) ↔ k' = k ∨ In k' (map fst d).
Proof.
  induction d as [|[k0 v0] d IH]; simpl.
  - split; [intros [Heq|[]]; left; now symmetry | intros [->|[]]; left; reflexivity].
  - destruct (decide (k0 = k)) as [->|Hne]; simpl.
    + split; [intros [Heq|Hin]; [left; now symmetry | right; right; exact Hin]|].
      intros [->|[Heq|Hin]]; [left; reflexivity | left; exact Heq | right; exact Hin].
    + rewrite IH. tauto.
Qed.

Lemma set_nodup (d : list (K * V)) (k : K) (v : V) :
  NoDup (map fst d) → NoDup (map fst (Dict.set d k v)).
Proof.
  induction d as [|[k0 v0] d IH]; simpl; intros Hnd.
  - constructor; [intros Hin; inversion Hin | constructor].
  - apply NoDup_cons in Hnd as [Hk0 Hnd].
    destruct (decide (k0 = k)) as [->|Hne]; simpl.
    + apply NoDup_cons. split; assumption.
    + apply NoDup_cons. split; [|apply IH; exact Hnd].
      intros Hin. apply list_elem_of_In in Hin. apply set_keys in Hin as [Heq|Hin].
      * congruence.
      * apply Hk0. apply list_elem_of_In. exact Hin.
Qed.

End WithKey.

Lemma nodup_fst_unique {A B : Type} (l : list (A * B)) (x : A) (y y' : B) :
  NoDup (map fst l) → In (x, y) l → In (x, y') l → y = y'.
Proof.
  induction l as [|[x0 y0] l IH]; simpl; intros Hnd Hy Hy'; [destruct Hy|].
  apply NoDup_cons in Hnd as [Hx0 Hnd].
  assert (Hnot : ∀ z, In (x0, z) l → False).
  { intros z Hz. apply Hx0. apply list_elem_of_In.
    apply in_map_iff. exists (x0, z). split; [reflexivity | exact Hz]. }
  destruct Hy as [Hy|Hy], Hy' as [Hy'|Hy'].
  - congruence.
  - exfalso. apply (Hnot y'). congruence.
  - exfalso. apply (Hnot y). congruence.
  - exact (IH Hnd Hy Hy').
Qed.

Section Flatten.
Context {K : Type} `{EqDecision K}.

(** the shortcuts [acc] holds stay, and those of [rest] behind [k] come in *)
Lemma flatten_inner_keys (k : K) (rest : list (list K * string))
    (acc : list (list K * string)) (s : list K) :
  In s (map fst acc) ∨ (∃ r a, In (r, a) rest ∧ s = k :: r) →
  In s (map fst (fold_left (fun ans' ra => Dict.set ans' (k :: fst ra) (snd ra))
                           rest acc)).
Proof.
  revert acc. induction rest as [|[r a] rest IH]; intros acc; simpl.
  - intros [Hin|(r & a & [] & _)]. exact Hin.
  - intros Hs. apply IH. destruct Hs as [Hin|(r' & a' & [[= <- <-]|Hin] & ->)].
    + left. apply set_keys. right. exact Hin.
    + left. apply set_keys. left. reflexivity.
    + right. exists r', a'. split; [exact Hin | reflexivity].
Qed.

Lemma flatten_outer_keys (l : list (K * list (list K * string)))
    (acc : list (list K * string)) (s : list K) :
  In s (map fst acc) ∨ (∃ k rest r a, In (k, rest) l ∧ In (r, a) rest ∧ s = k :: r) →
  In s (map fst (fold_left
                   (fun ans kr =>
                      fold_left (fun ans' ra => Dict.set ans' (fst kr :: fst ra) (snd ra))
                                (snd kr) ans) l acc)).
Proof.
  revert acc. induction l as [|[k rest] l IH]; intros acc; simpl.
  - intros [Hin|(k & rest & r & a & [] & _)]. exact Hin.
  - intros Hs. apply IH.
    destruct Hs as [Hin|(k' & rest' & r & a & [[= <- <-]|Hin] & Hr & ->)].
    + left. apply flatten_inner_keys. left. exact Hin.
    + left. apply flatten_inner_keys. right. exists r, a. split; [exact Hr | reflexivity].
    + right. exists k', rest', r, a. split; [exact Hin|]. split; [exact Hr | reflexivity].
Qed.

Lemma flatten_origin (m : list (K * list (list K * string))) :
  NoDup (map fst (flatten_sequence_map m))
  ∧ ∀ s a, In (s, a) (flatten_sequence_map m) →
           ∃ k rest r, In (k, rest) m ∧ In (r, a) rest ∧ s = k :: r.
Proof.
  unfold flatten_sequence_map.
  set (origin := fun (s : list K) (a : string) =>
                   ∃ k rest r, In (k, rest) m ∧ In (r, a) rest ∧ s = k :: r).
  assert (Hinner : ∀ (k : K) (full rest : list (list K * string)) acc,
            In (k, full) m → (∀ x, In x rest → In x full) →
            (NoDup (map fst acc) ∧ ∀ s a, In (s, a) acc → origin s a) →
            let acc' := fold_left (fun ans' ra => Dict.set ans' (k :: fst ra) (snd ra))
                                  rest acc in
            NoDup (map fst acc') ∧ ∀ s a, In (s, a) acc' → origin s a).
  { intros k full rest. induction rest as [|[r a] rest IH]; intros acc Hk Hsub [Hnd Hor].
    - split; assumption.
    - simpl. apply IH; [exact Hk | intros x Hx; apply Hsub; right; exact Hx|].
      split; [apply set_nodup; exact Hnd|].
      intros s a' Hin. apply set_in in Hin as [[= -> ->]|Hin]; [|exact (Hor _ _ Hin)].
      exists k, full, r. split; [exact Hk|]. split; [|reflexivity].
      apply Hsub. left. reflexivity. }
  assert (Houter : ∀ l acc, (∀ x, In x l → In x m) →
            (NoDup (map fst acc) ∧ ∀ s a, In (s, a) acc → origin s a) →
            let acc' := fold_left
                          (fun ans kr =>
                             fold_left (fun ans' ra => Dict.set ans' (fst kr :: fst ra) (snd ra))
                                       (snd kr) ans) l acc in
            NoDup (map fst acc') ∧ ∀ s a, In (s, a) acc' → origin s a).
  { induction l as [|[k rest] l IH]; intros acc Hsub Hacc.
    - exact Hacc.
    - simpl. apply IH; [intros x Hx; apply Hsub; right; exact Hx|].
      apply (Hinner k rest rest acc); [apply Hsub; left; reflexivity | tauto | exact Hacc]. }
  apply (Houter m []); [tauto|].
  split; [constructor | intros s a []].
Qed.

(** X19. [flatten_sequence_map] returns each shortcut once: every first
    key followed by one of its continuations is a key of the result, and no
    key is repeated. It binds a shortcut only to an action that the
    sequence map gives to its first key followed by the rest of its keys;
    for a sequence map that is a dictionary of dictionaries (no key
    repeated at either level) the result holds exactly those bindings. *)
Theorem flatten_sequence_map_sound (m : list (K * list (list K * string))) :
  NoDup (map fst (flatten_sequence_map m))
  ∧ (∀ k rest r a, In (k, rest) m → In (r, a) rest →
       In (k :: r) (map fst (flatten_sequence_map m)))
  ∧ (∀ s a, In (s, a) (flatten_sequence_map m) →
       ∃ k rest r, In (k, rest) m ∧ In (r, a) rest ∧ s = k :: r)
  ∧ (NoDup (map fst m) →
     (∀ k rest, In (k, rest) m → NoDup (map fst rest)) →
     ∀ s a, In (s, a) (flatten_sequence_map m)
            ↔ ∃ k rest r, In (k, rest) m ∧ In (r, a) rest ∧ s = k :: r).
Proof.
  destruct (flatten_origin m) as [Hnd Hsound].
  assert (Hkeys : ∀ k rest r a, In (k, rest) m → In (r, a) rest →
                  In (k :: r) (map fst (flatten_sequence_map m))).
  { intros k rest r a Hk Hr. unfold flatten_sequence_map.
    apply flatten_outer_keys. right. exists k, rest, r, a.
    split; [exact Hk|]. split; [exact Hr | reflexivity]. }
  split; [exact Hnd|]. split; [exact Hkeys|]. split; [exact Hsound|].
  intros Hm Hrest s a. split; [apply Hsound|].
  intros (k & rest & r & Hk & Hr & ->).
  pose proof (Hkeys k rest r a Hk Hr) as Hin.
  apply in_map_iff in Hin as ([s' a'] & Hs' & Hin). simpl in Hs'. subst s'.
  destruct (Hsound _ _ Hin) as (k' & rest' & r' & Hk' & Hr' & [= <- <-]).
  assert (rest' = rest) by (exact (nodup_fst_unique m k rest' rest Hm Hk' Hk)).
  subst rest'.
  assert (a' = a) by (exact (nodup_fst_unique rest r a' a (Hrest k rest Hk) Hr' Hr)).
  subst a'. exact Hin.
Qed.

End Flatten.

Lemma flatten_sequence_map_sound_witness :
  In (["ctrl+a"; "c"], "previous_tab") (flatten_sequence_map sample_sequence_map)
  ↔ ∃ k rest r, In (k, rest) sample_sequence_map ∧ In (r, "previous_tab") rest
                ∧ ["ctrl+a"; "c"] = k :: r.
Proof.
  refine (proj2 (proj2 (proj2 (flatten_sequence_map_sound sample_sequence_map))) _ _
            ["ctrl+a"; "c"] "previous_tab").
  - apply (bool_decide_unpack _). vm_compute. exact I.
  - intros k rest [[= <- <-]|[[= <- <-]|[]]]; apply (bool_decide_unpack _);
      vm_compute; exact I.
Defined.

End OptsFacts.

(** ** The issue banner and the actions table *)

Module BannerFacts.
Import Str Args Style Re Sorting Issue Actions Report Further StrFacts SortFacts.
Local Open Scope string_scope.
#[local] Arguments ceq : simpl never.

(** what the loop of [parse_issue_file] still owes for [last_char] *)
Lemma parse_issue_plain (d : IssueData) (a : string) (last : option ascii) :
  last ≠ Some BSLASH → has BSLASH a = false →
  Str.concat (parse_issue d last a)
  = match last with Some l => chr l | None => EmptyString end ++ a.
Proof.
  revert last. induction a as [|x a IH]; intros last Hl Ha.
  - destruct last; reflexivity.
  - simpl in Ha. destruct (ceq BSLASH x) eqn:Ex; [discriminate Ha|].
    assert (Hx : Some x ≠ Some BSLASH).
    { intros [= ->]. unfold ceq in Ex. rewrite Ascii.eqb_refl in Ex. discriminate Ex. }
    destruct last as [l|]; simpl.
    + destruct (ceq l BSLASH) eqn:El.
      * apply ceq_eq in El. congruence.
      * simpl. rewrite (IH (Some x) Hx Ha). reflexivity.
    + rewrite (IH (Some x) Hx Ha). reflexivity.
Qed.

Lemma parse_issue_escape (d : IssueData) (a : string) (c : ascii) (s : string)
    (last : option ascii) :
  last ≠ Some BSLASH → has BSLASH a = false →
  Str.concat (parse_issue d last (a ++ String BSLASH (String c s)))
  = match last with Some l => chr l | None => EmptyString end
    ++ a ++ translate_issue_char d c ++ Str.concat (parse_issue d None s).
Proof.
  revert last. induction a as [|x a IH]; intros last Hl Ha.
  - destruct last as [l|]; simpl.
    + destruct (ceq l BSLASH) eqn:El; [apply ceq_eq in El; congruence|].
      reflexivity.
    + reflexivity.
  - simpl in Ha. destruct (ceq BSLASH x) eqn:Ex; [discriminate Ha|].
    assert (Hx : Some x ≠ Some BSLASH).
    { intros [= ->]. unfold ceq in Ex. rewrite Ascii.eqb_refl in Ex. discriminate Ex. }
    destruct last as [l|]; simpl.
    + destruct (ceq l BSLASH) eqn:El; [apply ceq_eq in El; congruence|].
      simpl. rewrite (IH (Some x) Hx Ha). reflexivity.
    + rewrite (IH (Some x) Hx Ha). reflexivity.
Qed.

(** X20. [parse_issue_file] passes text without a backslash through as it
    is, and replaces a backslash and the character after it by the
    translation of that character, reading afresh what follows; a doubled
    backslash gives one backslash. *)
Theorem parse_issue_file_escapes (d : IssueData) (a : string) (c : ascii) (s : string) :
  has BSLASH a = false →
  Str.concat (parse_issue_file d a) = a
  ∧ Str.concat (parse_issue_file d (a ++ String BSLASH (String c s)))
    = a ++ translate_issue_char d c ++ Str.concat (parse_issue_file d s)
  ∧ translate_issue_char d BSLASH = chr BSLASH.
Proof.
  intros Ha. unfold parse_issue_file. split; [|split].
  - now rewrite (parse_issue_plain d a None).
  - now rewrite (parse_issue_escape d a c s None).
  - reflexivity.
Qed.

Lemma parse_issue_file_escapes_witness :
  Str.concat (parse_issue_file
                (mkIssueData Samples.sample_uname "box" "Wed" "12:00" "pts3" 0%Z 2%Z)
                ("Debian " ++ String BSLASH (String "n" " tty")))
  = "Debian "
    ++ translate_issue_char
         (mkIssueData Samples.sample_uname "box" "Wed" "12:00" "pts3" 0%Z 2%Z) "n"
    ++ Str.concat (parse_issue_file
                     (mkIssueData Samples.sample_uname "box" "Wed" "12:00" "pts3" 0%Z 2%Z)
                     " tty").
Proof.
  refine (proj1 (proj2 (parse_issue_file_escapes _ "Debian " "n" " tty" _))).
  reflexivity.
Defined.

(** X21. The [/etc/issue] step of [debug_config] ends with an exception
    only when the file exists and either opening or reading it fails, or a
    probe of [IssueData] raises something that is not an [Exception]. When
    it returns it has either written nothing or exactly what
    [parse_issue_file] yields, with no end of line added; the link counter
    and [action2key] are never touched. *)
Theorem issue_banner_outcome (cmdArgs : CmdArgs) (sys : Sys) (g : Globals) :
  (∀ e, issue_banner sys (printer cmdArgs) g = Raise e →
        issue_exists sys = true
        ∧ (issue_open sys = Raise e
           ∨ (IssueData_init (probes sys) = Raise e ∧ is_Exception e = false)))
  ∧ (∀ u g', issue_banner sys (printer cmdArgs) g = Ok (u, g') →
        link_id g' = link_id g ∧ action2key g' = action2key g
        ∧ (out g' = out g
           ∨ ∃ d content, IssueData_init (probes sys) = Ok d
                          ∧ issue_open sys = Ok content
                          ∧ out g' = out g ++ Str.concat (parse_issue_file d content))).
Proof.
  unfold issue_banner. split.
  - intros e. destruct (issue_exists sys); [|intros H; discriminate H].
    destruct (IssueData_init (probes sys)) as [d|e0].
    + unfold bind, probe. destruct (issue_open sys) as [content|e1].
      * intros H; discriminate H.
      * intros [= ->]. split; [reflexivity | left; reflexivity].
    + destruct (is_Exception e0) eqn:Ee; [intros H; discriminate H|].
      intros [= ->]. split; [reflexivity | right; split; [reflexivity | exact Ee]].
  - intros u g'. destruct (issue_exists sys).
    + destruct (IssueData_init (probes sys)) as [d|e0].
      * unfold bind, probe. destruct (issue_open sys) as [content|e1];
          [|intros H; discriminate H].
        unfold ret at 1. unfold printer, write. intros [= _ <-]. simpl.
        split; [reflexivity|]. split; [reflexivity|].
        right. exists d, content. split; [reflexivity|]. split; reflexivity.
      * destruct (is_Exception e0); [|intros H; discriminate H].
        intros [= _ <-]. split; [reflexivity|]. split; [reflexivity | left; reflexivity].
    + intros [= _ <-]. split; [reflexivity|]. split; [reflexivity | left; reflexivity].
Qed.

Lemma issue_banner_outcome_witness :
  issue_exists Samples.sys_issue_unreadable = true
  ∧ (issue_open Samples.sys_issue_unreadable = Raise OSError
     ∨ (IssueData_init (probes Samples.sys_issue_unreadable) = Raise OSError
        ∧ is_Exception OSError = false)).
Proof.
  apply (proj1 (issue_banner_outcome Samples.args_no_links
                  Samples.sys_issue_unreadable fresh) OSError).
  reflexivity.
Defined.

Lemma has_cut_at_break (c : ascii) (s : string) :
  (ceq c "013" || ceq c LF || ceq c ".") = true → has c (cut_at_break s) = false.
Proof.
  intros Hc. induction s as [|x s IH]; simpl; [reflexivity|].
  destruct (ceq x "013" || ceq x LF || ceq x ".") eqn:Ex; [reflexivity|].
  simpl. destruct (ceq c x) eqn:Ecx; [|exact IH].
  apply ceq_eq in Ecx. subst x. congruence.
Qed.

Lemma cut_at_break_prefix (s : string) : ∃ rest, s = cut_at_break s ++ rest.
Proof.
  induction s as [|x s [rest IH]]; simpl.
  - exists EmptyString. reflexivity.
  - destruct (ceq x "013" || ceq x LF || ceq x ".").
    + exists (String x s). reflexivity.
    + exists rest. simpl. now rewrite <- IH.
Qed.

(** X22. The summary [getActions] keeps of a docstring holds no full
    stop, line feed or carriage return, and it is the start of the
    docstring once its leading blanks are dropped. *)
Theorem doc_summary_one_sentence (doc : string) :
  has "." (doc_summary doc) = false
  ∧ has LF (doc_summary doc) = false
  ∧ has "013" (doc_summary doc) = false
  ∧ ∃ rest, drop_leading_blank doc = doc_summary doc ++ rest.
Proof.
  unfold doc_summary.
  split; [apply has_cut_at_break; reflexivity|].
  split; [apply has_cut_at_break; reflexivity|].
  split; [apply has_cut_at_break; reflexivity|].
  apply cut_at_break_prefix.
Qed.

(** X23. [getActions] returns one row per action, each made of the group,
    the name and the summary of the docstring of one of the actions, so
    the loop of [printActions] can always unpack a row into three
    fields. *)
Theorem getActions_rows (specs : list (string * string * string)) :
  length (getActions specs) = length specs
  ∧ ∀ row, In row (getActions specs) →
      ∃ group k doc, In (group, k, doc) specs ∧ row = [group; k; doc_summary doc].
Proof.
  unfold getActions.
  set (F := fun s : string * string * string =>
              let '(group, k, doc) := s in
              [order_get group; group; k; doc_summary doc]).
  pose proof (sorted_perm tuple_leb (map F specs)) as Hperm.
  split.
  - rewrite length_map, <- (Permutation_length Hperm), length_map. reflexivity.
  - intros row Hin. apply in_map_iff in Hin as (t & <- & Ht).
    apply (Permutation_in _ (Permutation_sym Hperm)) in Ht.
    apply in_map_iff in Ht as ([[group k] doc] & <- & Hs).
    exists group, k, doc. split; [exact Hs | reflexivity].
Qed.

End BannerFacts.

(** ** Resolution and the debug switch *)

Module ResolveFacts.
Import Args Further ArgsFacts.
Local Open Scope string_scope.

Lemma resolveParts_explicit (a : CmdArgs) (p : Part) (b : bool) :
  getattr a p = Some b → getattr (resolveParts a) p = Some b.
Proof.
  intros Hb. rewrite getattr_resolveParts, Hb.
  destruct (any_is true _) eqn:Et; [reflexivity|].
  destruct (any_is false _) eqn:Ef; [reflexivity|].
  destruct b.
  - reflexivity.
  - assert (any_is false (map (getattr a) parts) = true) as Hc
      by (apply any_is_spec; eauto).
    congruence.
Qed.

(** X24. [resolveParts] never overrides a part that a switch has set: an
    explicitly true or false part keeps its value, and the switches
    [deleted], [diff], [plain] and the [sort] text are left as they are. *)
Theorem resolveParts_keeps_explicit (a : CmdArgs) :
  (∀ p b, getattr a p = Some b → getattr (resolveParts a) p = Some b)
  ∧ deleted (resolveParts a) = deleted a
  ∧ diff (resolveParts a) = diff a
  ∧ plain (resolveParts a) = plain a
  ∧ sort (resolveParts a) = sort a.
Proof.
  destruct (flags_resolveParts a) as (Hd & Hp & _ & _ & Hde & Hs & _).
  split; [|tauto].
  intros p b. apply resolveParts_explicit.
Qed.

Lemma what_apply_switch (a : CmdArgs) (sw : Switch * bool) :
  what (apply_switch a sw) = what a.
Proof.
  destruct sw as [sw0 v0]. split_args a.
  destruct sw0 as [| |p0| | | | |]; try reflexivity.
  - destruct p0; reflexivity.
  - destruct v0; reflexivity.
Qed.

Lemma what_fold (sws : list (Switch * bool)) (a : CmdArgs) :
  what (fold_left apply_switch sws a) = what a.
Proof.
  revert a. induction sws as [|sw sws IH]; intros a; [reflexivity|].
  simpl. rewrite IH. apply what_apply_switch.
Qed.

Lemma defaults_init (a : CmdArgs) : what a = None → defaults a = init.
Proof. split_args a. simpl. intros ->. reflexivity. Qed.

(** X25. The switch [--no-debug_config] calls [defaults]: it discards
    every switch given before it, so that a command line ending with it is
    parsed like an empty one. *)
Theorem no_debug_discards_earlier_switches (sws : list (Switch * bool)) :
  parseArgs init (sws ++ [(SwDebugConfig, false)]) = parseArgs init [].
Proof.
  unfold parseArgs. rewrite fold_left_app.
  change (resolveParts (defaults (fold_left apply_switch sws init)) = resolveParts init).
  rewrite defaults_init; [reflexivity|].
  rewrite what_fold. reflexivity.
Qed.

(** X26. A command line that ends with [--debug_config] is resolved to
    diff mode with deleted bindings shown, unassigned actions hidden and
    every part but the actions selected, whatever switches came before;
    the report is headed [DIFF of]. *)
Theorem debug_last_overrides (sws : list (Switch * bool)) :
  let r := parseArgs init (sws ++ [(SwDebugConfig, true)]) in
  diff r = true ∧ deleted r = true ∧ empty r = false
  ∧ what r = Some "DIFF of"
  ∧ ∀ p, getattr r p = Some (if decide (p = actions) then false else true).
Proof.
  intros r. subst r. unfold parseArgs. rewrite fold_left_app. cbn [fold_left].
  generalize (fold_left apply_switch sws init). intros a.
  change (apply_switch a (SwDebugConfig, true)) with (set_debug_config a (Some true)).
  set (x := set_debug_config a (Some true)).
  assert (Hd : diff x = true) by (subst x; split_args a; reflexivity).
  assert (He : empty x = false) by (subst x; split_args a; reflexivity).
  assert (Hdel : deleted x = true) by (subst x; split_args a; reflexivity).
  assert (Hp : ∀ p, getattr x p = Some (if decide (p = actions) then false else true))
    by (intros p; subst x; split_args a; destruct p; reflexivity).
  destruct (flags_resolveParts x) as (Hd' & _ & He' & _ & Hde' & _ & Hw').
  rewrite Hd', Hde', He', Hw', Hd, Hdel.
  repeat (split; [reflexivity|]).
  intros p. apply resolveParts_explicit. apply Hp.
Qed.

End ResolveFacts.
